(** * Clip suggester: caption parsing, window scan, scoring and greedy selection

    A shallow embedding of [parse_timedtext] and [suggest_clips_from_segments]
    of [main.py], and the properties of the specification checked against it;
    then of the functions around them ([extract_video_id],
    [fetch_transcript_xml], the transcript, suggestion and link-scraping
    endpoints), with properties read off their code.

    Modelling conventions.
    - Python floats are the rationals [Q]: finite values with exact
      arithmetic; infinities and NaN have no counterpart.  Numeric equality
      is [==]; [round(x, 2)] is rounding of the exact value to the nearest
      multiple of 1/100, ties to the even one.
    - Python strings are Stdlib strings, each character read as a code point
      in 0..255.
    - The two [while] loops carry a fuel argument that bounds the number of
      guard evaluations; [None] means the fuel ran out.  The loops are shown
      to exit through their guards whenever the fuel exceeds the number of
      segments.
    - [ElementTree.fromstring] and [float] are library code: the first is
      represented by its outcome (a tree, or a parse error), the second is a
      parameter of the parser.  [urlparse], [parse_qs], [requests.get] and
      the order in which a set is listed are parameters in the same way; a
      request is identified by its address and by the number of requests
      made before it. *)

From Stdlib Require Import QArith Qround Qabs ZArith String Ascii Lia Lqa.
From stdpp Require Import base option list strings gmap pretty.

Open Scope Q_scope.

(** ** Numbers *)

Module PyNum.

(** [x < y] on floats, as a boolean. *)
Definition Qlt_bool (x y : Q) : bool := negb (Qle_bool y x).

(** Nearest integer, ties to even: what [round] does on an exact value. *)
Definition round_half_even (x : Q) : Z :=
  let f := Qfloor x in
  match Qcompare (x - inject_Z f) (1 # 2) with
  | Lt => f
  | Gt => (f + 1)%Z
  | Eq => if Z.even f then f else (f + 1)%Z
  end.

(** [round(x, 2)]. *)
Definition round2 (x : Q) : Q := round_half_even (x * 100) # 100.

End PyNum.
Export PyNum.

(** ** Strings *)

Module PyStr.

Open Scope N_scope.

Definition code (c : ascii) : N := N_of_ascii c.

(** [c.lower()] on one character: A-Z, and the upper-case letters of the
    range 192..222 (215 is the multiplication sign). *)
Definition lower_char (c : ascii) : ascii :=
  let n := code c in
  if ((65 <=? n) && (n <=? 90)) || ((192 <=? n) && (n <=? 222) && negb (n =? 215))
  then ascii_of_N (n + 32) else c.

(** [s.lower()]. *)
Fixpoint lower (s : string) : string :=
  match s with
  | EmptyString => EmptyString
  | String c s' => String (lower_char c) (lower s')
  end.

(** [c.isspace()]. *)
Definition is_space (c : ascii) : bool :=
  let n := code c in
  ((9 <=? n) && (n <=? 13)) || ((28 <=? n) && (n <=? 32)) || (n =? 133) || (n =? 160).

Fixpoint lstrip (s : string) : string :=
  match s with
  | String c s' => if is_space c then lstrip s' else s
  | EmptyString => EmptyString
  end.

(** Strips trailing white space: a character is kept when something kept
    follows it or when it is not white space. *)
Fixpoint rstrip (s : string) : string :=
  match s with
  | EmptyString => EmptyString
  | String c s' =>
      match rstrip s' with
      | EmptyString => if is_space c then EmptyString else String c EmptyString
      | r => String c r
      end
  end.

(** [s.strip()]. *)
Definition strip (s : string) : string := rstrip (lstrip s).

(** [k in s]: [k] occurs in [s] as a substring. *)
Fixpoint contains (k s : string) : bool :=
  String.prefix k s ||
  match s with
  | EmptyString => false
  | String _ s' => contains k s'
  end.

(** [sep.join(l)]. *)
Definition join (sep : string) (l : list string) : string := String.concat sep l.

(** [re.search(r"[.!?]", s)] as a truth value. *)
Fixpoint search_terminal (s : string) : bool :=
  match s with
  | EmptyString => false
  | String c s' =>
      (code c =? 46) || (code c =? 33) || (code c =? 63) || search_terminal s'
  end.

(** [s.replace("\n", " ")]. *)
Fixpoint replace_newlines (s : string) : string :=
  match s with
  | EmptyString => EmptyString
  | String c s' =>
      String (if code c =? 10 then " "%char else c) (replace_newlines s')
  end.

End PyStr.

(** ** Data model *)

(** A parsed caption line: the dictionary with keys start, dur, end, text. *)
Record segment := Segment {
  seg_start : Q;
  seg_dur : Q;
  seg_end : Q;
  seg_text : string
}.

(** A clip candidate: the dictionary with keys start, end, duration, text,
    score. *)
Record clip := Clip {
  start : Q;
  end_ : Q;
  duration : Q;
  text : string;
  score : Q
}.

(** One iteration of the outer loop of the window scan. *)
Record iteration := Iteration {
  it_i : nat;
  it_emitted : option clip;
  it_j : nat
}.

(** ** The clip suggester *)

Definition keywords : list string :=
  [ "secret"; "tips"; "hack"; "mistake"; "story"; "crazy"; "insane"; "unexpected";
    "how to"; "why"; "what"; "this is"; "you need"; "stop"; "start"; "learn";
    "viral"; "trick"; "strategy"; "trend"; "money"; "growth"; "win"; "best" ]%string.

(** [sum(2 for k in keywords if k in combined.lower())]. *)
Definition kw_score (combined : string) : Z :=
  fold_right Z.add 0%Z
    (map (fun k => if PyStr.contains k (PyStr.lower combined) then 2%Z else 0%Z) keywords).

(** [abs(span - ((min_len + max_len) / 2)) / 10.0]. *)
Definition length_penalty (min_len max_len span : Q) : Q :=
  Qabs (span - (min_len + max_len) / 2) / 10.

Section Scan.

Variable segments : list segment.
Variables min_len max_len : Q.

(** The test that closes a window at [j]: terminal punctuation in the text
    of segment [j], or a next segment starting more than 0.6 s after it
    ends. *)
Definition break_condition (j : nat) (sj : segment) : bool :=
  PyStr.search_terminal (seg_text sj) ||
  match segments !! (j + 1)%nat with
  | Some nxt => Qlt_bool 0.6 (seg_start nxt - seg_end sj)
  | None => false
  end.

(** The dictionary appended to [candidates]. *)
Definition make_candidate (start_t : Q) (sj : segment) (window_text : list string) : clip :=
  let combined := PyStr.join " " window_text in
  let kw := kw_score combined in
  let pen := length_penalty min_len max_len (seg_end sj - start_t) in
  {| start := round2 start_t;
     end_ := round2 (seg_end sj);
     duration := round2 (seg_end sj - start_t);
     text := PyStr.strip combined;
     score := inject_Z kw - pen |}.

(** The inner [while]: returns the candidate appended before [break], if
    any, and the value of [j] when the loop is left. *)
Fixpoint inner_loop (fuel : nat) (start_t : Q) (j : nat) (window_text : list string)
  : option (option clip * nat) :=
  match fuel with
  | O => None
  | S fuel' =>
      match segments !! j with
      | None => Some (None, j)
      | Some sj =>
          if Qlt_bool (seg_end sj - start_t) max_len then
            let window_text := window_text ++ [seg_text sj] in
            if Qle_bool min_len (seg_end sj - start_t) then
              if break_condition j sj then
                Some (Some (make_candidate start_t sj window_text), j)
              else inner_loop fuel' start_t (j + 1)%nat window_text
            else inner_loop fuel' start_t (j + 1)%nat window_text
          else Some (None, j)
      end
  end.

(** The outer [while], with [gas] the fuel handed to each inner loop. *)
Fixpoint outer_loop (gas fuel : nat) (i : nat) (candidates : list clip)
  : option (list clip) :=
  match fuel with
  | O => None
  | S fuel' =>
      match segments !! i with
      | None => Some candidates
      | Some si =>
          '(emitted, j) ← inner_loop gas (seg_start si) i [];
          outer_loop gas fuel' (Nat.max (i + 1) j) (candidates ++ option_list emitted)
      end
  end.

Definition window_scan (fuel : nat) : option (list clip) :=
  outer_loop fuel fuel 0%nat [].

(** The outer loop once more, recording each iteration instead of the
    candidate list: the outer index, what the inner loop appended, and the
    inner index on leaving the inner loop. *)
Fixpoint scan_trace (gas fuel : nat) (i : nat) : option (list iteration) :=
  match fuel with
  | O => None
  | S fuel' =>
      match segments !! i with
      | None => Some []
      | Some si =>
          '(emitted, j) ← inner_loop gas (seg_start si) i [];
          tr ← scan_trace gas fuel' (Nat.max (i + 1) j);
          Some (Iteration i emitted j :: tr)
      end
  end.

(** *** Vocabulary for the window scan *)

(** Segment [k] keeps the window opened at [start_t] below [max_len]. *)
Definition in_window (start_t : Q) (k : nat) : Prop :=
  exists sk, segments !! k = Some sk /\ seg_end sk - start_t < max_len.

(** Segment [k] has cumulative span in [min_len, max_len) and satisfies the
    break condition. *)
Definition closes (start_t : Q) (k : nat) : Prop :=
  exists sk, segments !! k = Some sk /\
    min_len <= seg_end sk - start_t /\ seg_end sk - start_t < max_len /\
    break_condition k sk = true.

(** The inner cursor, started at [i], gets as far as [j]: every index before
    [j] kept the window below [max_len] and did not close it. *)
Definition scanned (start_t : Q) (i j : nat) : Prop :=
  forall k, (i <= k < j)%nat -> in_window start_t k /\ ~ closes start_t k.

(** The texts of segments [i..j], which [window_text] holds at [j]. *)
Definition window_texts (i j : nat) : list string :=
  map seg_text (take (j + 1 - i) (drop i segments)).

(** What one run of the inner loop, entered at index [i] with window start
    [start_t], leaves behind: the cursor got as far as [j]; either the
    window was closed at [j] and its candidate appended, or the loop guard
    failed at [j]. *)
Definition inner_result (start_t : Q) (i : nat) (emitted : option clip) (j : nat) : Prop :=
  (i <= j <= length segments)%nat /\
  scanned start_t i j /\
  match emitted with
  | Some c =>
      closes start_t j /\
      exists sj, segments !! j = Some sj /\
        c = make_candidate start_t sj (window_texts i j)
  | None => ~ in_window start_t j
  end.

(** The runs of the outer loop from cursor position [i] on: each iteration
    opens a window at segment [i] and moves the cursor to [max (i+1) j]. *)
Inductive trace_from : nat -> list iteration -> Prop :=
| trace_done (i : nat) :
    (length segments <= i)%nat -> trace_from i []
| trace_step (i : nat) (si : segment) (emitted : option clip) (j : nat)
             (tr : list iteration) :
    segments !! i = Some si ->
    inner_result (seg_start si) i emitted j ->
    trace_from (Nat.max (i + 1) j) tr ->
    trace_from i (Iteration i emitted j :: tr).

End Scan.

(** [candidates.sort(key=lambda x: x["score"], reverse=True)]: the stable
    sort by descending score.  [insert_desc c l] places [c] behind every
    element of [l] whose score is at least that of [c]. *)
Fixpoint insert_desc (c : clip) (l : list clip) : list clip :=
  match l with
  | [] => [c]
  | x :: l' => if Qle_bool (score c) (score x) then x :: insert_desc c l' else c :: l
  end.

Definition sort_desc (l : list clip) : list clip :=
  fold_left (fun acc c => insert_desc c acc) l [].

(** The overlap test of the selection loop. *)
Definition overlaps (c : clip) (u : Q * Q) : bool :=
  negb (Qle_bool (end_ c) (fst u) || Qle_bool (snd u) (start c)).

(** The greedy selection loop over the sorted candidates. *)
Fixpoint select (top_k : Z) (cs : list clip) (selected : list clip) (used : list (Q * Q))
  : list clip :=
  match cs with
  | [] => selected
  | c :: cs' =>
      if (top_k <=? Z.of_nat (length selected))%Z then selected
      else if existsb (overlaps c) used then select top_k cs' selected used
      else select top_k cs' (selected ++ [c]) (used ++ [(start c, end_ c)])
  end.

Definition suggest_clips_from_segments_fuel (fuel : nat)
    (segments : list segment) (min_len max_len : Q) (top_k : Z) : option (list clip) :=
  match segments with
  | [] => Some []
  | _ =>
      candidates ← window_scan segments min_len max_len fuel;
      Some (select top_k (sort_desc candidates) [] [])
  end.

(** The function itself, run with fuel [S (length segments)], which always
    suffices. *)
Definition suggest_clips_from_segments
    (segments : list segment) (min_len max_len : Q) (top_k : Z) : list clip :=
  default [] (suggest_clips_from_segments_fuel (S (length segments)) segments min_len max_len top_k).


(** The candidate list when the scan is over, and the iterations the scan
    went through. *)
Definition candidates (segments : list segment) (min_len max_len : Q) : list clip :=
  default [] (window_scan segments min_len max_len (S (length segments))).

Definition trace (segments : list segment) (min_len max_len : Q) : list iteration :=
  default [] (scan_trace segments min_len max_len
                (S (length segments)) (S (length segments)) 0).

(** ** The segment parser *)

(** An [xml.etree] element: tag, attribute dictionary, text before the first
    child, children. *)
#[warnings="-register-all"]
Inductive element :=
  Element (tag : string) (attrib : gmap string string) (etext : option string)
          (children : list element).

Definition el_tag (e : element) : string := let (t, _, _, _) := e in t.
Definition el_attrib (e : element) : gmap string string := let (_, a, _, _) := e in a.
Definition el_text (e : element) : option string := let (_, _, t, _) := e in t.
Definition el_children (e : element) : list element := let (_, _, _, c) := e in c.

(** [e.iter()]: the element and its descendants, in document order. *)
Fixpoint iter_all (e : element) : list element :=
  match e with
  | Element _ _ _ cs =>
      e :: (fix go (l : list element) : list element :=
              match l with
              | [] => []
              | c :: l' => iter_all c ++ go l'
              end) cs
  end.

(** [e.iter(tag)]. *)
Definition iter (t : string) (e : element) : list element :=
  filter (fun x => el_tag x = t) (iter_all e).

Section Parser.

(** [ET.fromstring]: [None] when the text is not well-formed. *)
Variable fromstring : string -> option element.
(** [float]: [None] when the string is not a number. *)
Variable float : string -> option Q.

(** The body of the [for] loop: [None] when [float] raises. *)
Definition node_segment (node : element) : option segment :=
  start ← float (default "0"%string (el_attrib node !! "start"%string));
  dur ← float (default "0"%string (el_attrib node !! "dur"%string));
  let text := PyStr.replace_newlines (default ""%string (el_text node)) in
  Some {| seg_start := start; seg_dur := dur; seg_end := start + dur; seg_text := text |}.

(** The body of the [try]: [None] when an exception is raised. *)
Definition parse_body (xml_text : string) : option (list segment) :=
  root ← fromstring xml_text;
  mapM node_segment (iter "text" root).

(** [parse_timedtext]: any exception gives the empty list. *)
Definition parse_timedtext (xml_text : string) : list segment :=
  default [] (parse_body xml_text).

(** The number [x] is what attribute [key] of [node] stands for: its value
    read as a number, or 0 when the attribute is absent. *)
Definition attr_number (node : element) (key : string) (x : Q) : Prop :=
  match el_attrib node !! key with
  | Some v => float v = Some x
  | None => x = 0
  end.

(** [seg] is the segment of the element [node]. *)
Definition segment_of (node : element) (seg : segment) : Prop :=
  attr_number node "start" (seg_start seg) /\
  attr_number node "dur" (seg_dur seg) /\
  seg_end seg = seg_start seg + seg_dur seg /\
  seg_text seg = PyStr.replace_newlines (default ""%string (el_text node)).

End Parser.

(** A reading of plain decimal numerals ([12], [-3.25], [+0.5]) as [float]
    reads them; other strings are rejected.  Used for the worked examples. *)
Definition digit_of (c : ascii) : option Z :=
  let n := PyStr.code c in
  if ((48 <=? n) && (n <=? 57))%N then Some (Z.of_N n - 48)%Z else None.

Fixpoint digits (s : string) (acc : Z) : option (Z * string) :=
  match s with
  | EmptyString => Some (acc, EmptyString)
  | String c s' =>
      match digit_of c with
      | Some d => digits s' (10 * acc + d)%Z
      | None => Some (acc, s)
      end
  end.

Fixpoint fraction (s : string) (num : Z) (den : positive) : option Q :=
  match s with
  | EmptyString => Some (num # den)
  | String c s' =>
      match digit_of c with
      | Some d => fraction s' (10 * num + d)%Z (10 * den)%positive
      | None => None
      end
  end.

Definition unsigned_decimal (s : string) : option Q :=
  match s with
  | EmptyString => None
  | String c _ =>
      match digit_of c with
      | None => None
      | Some _ =>
          match digits s 0%Z with
          | Some (n, EmptyString) => Some (inject_Z n)
          | Some (n, String "."%char rest) => fraction rest n 1%positive
          | _ => None
          end
      end
  end.

Definition decimal_float (s : string) : option Q :=
  match s with
  | String "-"%char s' => Qopp <$> unsigned_decimal s'
  | String "+"%char s' => unsigned_decimal s'
  | _ => unsigned_decimal s
  end.

(** ** Worked inputs *)

(** Two caption documents and the trees the XML parser builds from them.  In
    the first, one element has no start attribute and a line break in its
    text; in the second, a start attribute is not a number. *)
Definition captions_ok : string :=
  "<transcript><text dur='1.5'>a" ++
  String "010" "b</text><text start='2' dur='3'>c</text></transcript>".

Definition tree_ok : element :=
  Element "transcript" ∅ None
    [ Element "text" {[ "dur"%string := "1.5"%string ]}
        (Some (String "a" (String "010" (String "b" EmptyString)))) [];
      Element "text" {[ "start"%string := "2"%string; "dur"%string := "3"%string ]}
        (Some "c"%string) [] ].

Definition captions_bad : string :=
  "<transcript><text start='abc' dur='2'>hi</text></transcript>".

Definition tree_bad : element :=
  Element "transcript" ∅ None
    [ Element "text" {[ "start"%string := "abc"%string; "dur"%string := "2"%string ]}
        (Some "hi"%string) [] ].

(** The XML parser on the two documents; nothing else is taken as
    well-formed here. *)
Definition sample_fromstring (s : string) : option element :=
  if String.eqb s captions_ok then Some tree_ok
  else if String.eqb s captions_bad then Some tree_bad
  else None.

(** The scenario of the specification. *)
Definition scenario : list segment :=
  [ Segment 0 10 10 "hello world"; Segment 10 15 25 "this is a secret trick." ].

(** Two lines that meet at the instant 25, with equal scores. *)
Definition adjacent_lines : list segment :=
  [ Segment 0 25 25 "one."; Segment 25 25 50 "two." ].

(** A long caption still on screen when a short one starts. *)
Definition overlapping_captions : list segment :=
  [ Segment 0 100 100 "intro"; Segment 5 20 25 "fine." ].


Definition short_line : list segment :=
  [ Segment 0 20.004 20.004 "a." ].

(** ** Properties read off the specification *)

Definition interval (c : clip) : Q * Q := (start c, end_ c).

(** [a] was produced before [b] in the list [L]. *)
Definition before (L : list clip) (a b : clip) : Prop :=
  exists p q, (p < q)%nat /\ L !! p = Some a /\ L !! q = Some b.

(** [a] may stand in front of [b] after the sort of [L]: its score is at
    least that of [b], and on equal scores it was produced first. *)
Definition ranked (L : list clip) (a b : clip) : Prop :=
  score b <= score a /\ (score a == score b -> before L a b).

(** The half-open overlap test, as the specification writes it. *)
Definition disjoint (a b : clip) : Prop :=
  end_ a <= start b \/ start a >= end_ b.

Definition non_overlapping (l : list clip) : Prop :=
  forall p q a b, p <> q -> l !! p = Some a -> l !! q = Some b -> disjoint a b.

(** ** Video ids *)

Module PyUrl.

(** [s.startswith(p)]. *)
Definition startswith (p s : string) : bool := String.prefix p s.

(** [s.endswith(suf)]. *)
Fixpoint endswith (suf s : string) : bool :=
  String.eqb suf s ||
  match s with
  | EmptyString => false
  | String _ s' => endswith suf s'
  end.

(** [s.split(sep)] for a separator of one character: never the empty list. *)
Fixpoint split_on (sep : ascii) (s : string) : list string :=
  match s with
  | EmptyString => [EmptyString]
  | String c s' =>
      if Ascii.eqb c sep then EmptyString :: split_on sep s'
      else
        match split_on sep s' with
        | h :: t => String c h :: t
        | [] => [String c EmptyString]
        end
  end.

Fixpoint lstrip_char (ch : ascii) (s : string) : string :=
  match s with
  | String c s' => if Ascii.eqb c ch then lstrip_char ch s' else s
  | EmptyString => EmptyString
  end.

Fixpoint rstrip_char (ch : ascii) (s : string) : string :=
  match s with
  | EmptyString => EmptyString
  | String c s' =>
      match rstrip_char ch s' with
      | EmptyString => if Ascii.eqb c ch then EmptyString else String c EmptyString
      | r => String c r
      end
  end.

(** [s.strip(ch)] for one character [ch]. *)
Definition strip_char (ch : ascii) (s : string) : string :=
  rstrip_char ch (lstrip_char ch s).

(** The string consists of the character [ch] only. *)
Fixpoint all_char (ch : ascii) (s : string) : bool :=
  match s with
  | EmptyString => true
  | String c s' => Ascii.eqb c ch && all_char ch s'
  end.

(** The character [ch] occurs in the string. *)
Fixpoint has_char (ch : ascii) (s : string) : bool :=
  match s with
  | EmptyString => false
  | String c s' => Ascii.eqb c ch || has_char ch s'
  end.

End PyUrl.

(** What [urlparse] returns, as far as the code looks at it. *)
Record parse_result := ParseResult {
  netloc : string;
  path : string;
  query : string
}.

Section VideoId.

(** [urlparse]: [None] when it raises. *)
Variable urlparse : string -> option parse_result.
(** [parse_qs]: the dictionary from parameter names to their values. *)
Variable parse_qs : string -> gmap string (list string).

(** The last [if] of the [try] block, reached from two places. *)
Definition short_link_id (parsed : parse_result) : option string :=
  if String.eqb (netloc parsed) "youtu.be"
  then Some (PyUrl.strip_char "/" (path parsed))
  else None.

(** [extract_video_id]: every exception gives [None]. *)
Definition extract_video_id (url : string) : option string :=
  match urlparse url with
  | None => None
  | Some parsed =>
      if PyUrl.endswith "youtube.com" (netloc parsed) then
        if String.eqb (path parsed) "/watch" then
          match parse_qs (query parsed) !! "v"%string with
          | Some (v :: _) => Some v
          | Some [] => None
          | None => None
          end
        else if PyUrl.startswith "/shorts/" (path parsed) then
          last (PyUrl.split_on "/" (path parsed))
        else short_link_id parsed
      else short_link_id parsed
  end.

End VideoId.

(** ** Fetching the captions *)

(** What the code reads of a [requests] response. *)
Record response := Response {
  status_code : Z;
  resp_text : string
}.

(** What [requests.get] does: it raises, or it returns a response. *)
Inductive get_result :=
| Raises (msg : string)
| Responds (r : response).

(** How a function of the service ends: with a value, with an
    [HTTPException], or with another exception that nobody caught. *)
Inductive outcome (A : Type) : Type :=
| Returns (a : A)
| HTTPException (status : Z) (detail : string)
| Propagates (msg : string).

Arguments Returns {A} a.
Arguments HTTPException {A} status detail.
Arguments Propagates {A} msg.

(** Truth value of an optional string: [None] and the empty string are
    false. *)
Definition truthy (o : option string) : bool :=
  match o with
  | Some s => negb (String.eqb s "")
  | None => false
  end.

(** The four addresses that are tried, in order. *)
Definition timedtext_endpoints (video_id lang : string) : list string :=
  [ ("https://www.youtube.com/api/timedtext?v=" ++ video_id ++ "&lang=" ++ lang)%string;
    ("https://www.youtube.com/api/timedtext?v=" ++ video_id ++ "&lang=" ++ lang ++ "&fmt=vtt")%string;
    ("https://www.youtube.com/api/timedtext?v=" ++ video_id ++ "&lang=en")%string;
    ("https://www.youtube.com/api/timedtext?v=" ++ video_id ++ "&lang=en&fmt=vtt")%string ].

(** [r.status_code == 200 and r.text.strip()]. *)
Definition usable (r : response) : bool :=
  (status_code r =? 200)%Z && negb (String.eqb (PyStr.strip (resp_text r)) "").

Section Service.

(** The network as one call of the service meets it: [requests_get n url] is
    what the request for [url] gives when [n] requests were made before it. *)
Variable requests_get : nat -> string -> get_result.
Variable urlparse : string -> option parse_result.
Variable parse_qs : string -> gmap string (list string).
Variable fromstring : string -> option element.
Variable float : string -> option Q.

(** The [for] loop of [fetch_transcript_xml], [n] requests having been made. *)
Fixpoint fetch_loop (n : nat) (endpoints : list string) : outcome (option string) :=
  match endpoints with
  | [] => Returns None
  | url :: rest =>
      match requests_get n url with
      | Raises msg => Propagates msg
      | Responds r =>
          if usable r then Returns (Some (resp_text r))
          else fetch_loop (S n) rest
      end
  end.

Definition fetch_transcript_xml (video_id lang : string) : outcome (option string) :=
  fetch_loop 0 (timedtext_endpoints video_id lang).

(** Every address before position [k] of the list was answered, and with
    nothing usable; [n] requests were made before the first of them. *)
Definition all_failed_before (n : nat) (endpoints : list string) (k : nat) : Prop :=
  forall k' url', (k' < k)%nat -> endpoints !! k' = Some url' ->
    exists r', requests_get (n + k') url' = Responds r' /\ usable r' = false.

(** [if url and not video_id: video_id = extract_video_id(url)], the statement
    both endpoints start from. *)
Definition resolve_video_id (video_id url : option string) : option string :=
  if truthy url && negb (truthy video_id)
  then extract_video_id urlparse parse_qs (default ""%string url)
  else video_id.

(** The dictionary returned by the transcript endpoint. *)
Record transcript_response := TranscriptResponse {
  tr_video_id : string;
  tr_segments : list segment;
  tr_available : bool
}.

(** [transcript(video_id, url, lang)]. *)
Definition transcript (video_id url : option string) (lang : string)
  : outcome transcript_response :=
  if negb (truthy video_id) && negb (truthy url) then
    HTTPException 400 "Provide video_id or url"
  else
    let video_id := resolve_video_id video_id url in
    if negb (truthy video_id) then
      HTTPException 400 "Unable to extract video id"
    else
      let vid := default ""%string video_id in
      match fetch_transcript_xml vid lang with
      | Returns xml_text =>
          if negb (truthy xml_text) then
            Returns {| tr_video_id := vid; tr_segments := []; tr_available := false |}
          else
            let segments := parse_timedtext fromstring float (default ""%string xml_text) in
            Returns {| tr_video_id := vid; tr_segments := segments; tr_available := true |}
      | HTTPException st d => HTTPException st d
      | Propagates msg => Propagates msg
      end.

(** One entry of the clips list of the suggestion endpoint. *)
Record clip_result := ClipResult {
  cr_start : Q;
  cr_end : Q;
  cr_duration : Q;
  cr_text : string;
  cr_lines : list segment
}.

Record suggest_response := SuggestResponse {
  sr_video_id : string;
  sr_clips : list clip_result;
  sr_available : bool
}.

(** [[s for s in segments if s["start"] >= c["start"] and s["end"] <= c["end"]]]. *)
Definition lines_within (segments : list segment) (c : clip) : list segment :=
  List.filter (fun s => Qle_bool (start c) (seg_start s) && Qle_bool (seg_end s) (end_ c))
              segments.

Definition clip_with_lines (segments : list segment) (c : clip) : clip_result :=
  {| cr_start := start c; cr_end := end_ c; cr_duration := duration c;
     cr_text := text c; cr_lines := lines_within segments c |}.

(** [suggest_clips(video_id, url, lang, top_k)]. *)
Definition suggest_clips (video_id url : option string) (lang : string) (top_k : Z)
  : outcome suggest_response :=
  let video_id := resolve_video_id video_id url in
  if negb (truthy video_id) then
    HTTPException 400 "Provide video_id or url"
  else
    let vid := default ""%string video_id in
    match fetch_transcript_xml vid lang with
    | Returns xml_text =>
        if negb (truthy xml_text) then
          Returns {| sr_video_id := vid; sr_clips := []; sr_available := false |}
        else
          let segments := parse_timedtext fromstring float (default ""%string xml_text) in
          let clips := suggest_clips_from_segments segments 20 60 top_k in
          Returns {| sr_video_id := vid;
                     sr_clips := map (clip_with_lines segments) clips;
                     sr_available := true |}
    | HTTPException st d => HTTPException st d
    | Propagates msg => Propagates msg
    end.

End Service.

(** [urlparse] and [parse_qs] on a few addresses, for the worked examples;
    other addresses are not needed there and are given as raising. *)
Definition sample_urlparse (url : string) : option parse_result :=
  if String.eqb url "https://www.youtube.com/watch?v=dQw4w9WgXcQ" then
    Some (ParseResult "www.youtube.com" "/watch" "v=dQw4w9WgXcQ")
  else if String.eqb url "https://m.youtube.com/shorts/abcdefghijk" then
    Some (ParseResult "m.youtube.com" "/shorts/abcdefghijk" "")
  else if String.eqb url "https://youtu.be/dQw4w9WgXcQ/" then
    Some (ParseResult "youtu.be" "/dQw4w9WgXcQ/" "")
  else if String.eqb url "https://youtu.be/" then
    Some (ParseResult "youtu.be" "/" "")
  else if String.eqb url "https://vimeo.com/watch?v=dQw4w9WgXcQ" then
    Some (ParseResult "vimeo.com" "/watch" "v=dQw4w9WgXcQ")
  else None.

Definition sample_parse_qs (q : string) : gmap string (list string) :=
  if String.eqb q "v=dQw4w9WgXcQ" then {[ "v"%string := ["dQw4w9WgXcQ"%string] ]}
  else ∅.

(** A caption track of two lines of 25 s, the tree the XML parser builds from
    it, and a network on which the first address tried for the video
    dQw4w9WgXcQ gives that track and every other address gives 404. *)
Definition captions_talk : string :=
  "<transcript><text start='0' dur='25'>one.</text><text start='25' dur='25'>two.</text></transcript>".

Definition tree_talk : element :=
  Element "transcript" ∅ None
    [ Element "text" {[ "start"%string := "0"%string; "dur"%string := "25"%string ]}
        (Some "one."%string) [];
      Element "text" {[ "start"%string := "25"%string; "dur"%string := "25"%string ]}
        (Some "two."%string) [] ].

Definition talk_fromstring (s : string) : option element :=
  if String.eqb s captions_talk then Some tree_talk else None.

Definition talk_requests_get (n : nat) (url : string) : get_result :=
  if String.eqb url "https://www.youtube.com/api/timedtext?v=dQw4w9WgXcQ&lang=en"
  then Responds (Response 200 captions_talk)
  else Responds (Response 404 "").

(** A network on which only the WebVTT address of that video answers, with a
    body that is not XML. *)
Definition vtt_requests_get (n : nat) (url : string) : get_result :=
  if String.eqb url "https://www.youtube.com/api/timedtext?v=dQw4w9WgXcQ&lang=en&fmt=vtt"
  then Responds (Response 200 "WEBVTT")
  else Responds (Response 404 "").

(** Two segments that agree on start, end and text. *)
Definition same_timing (s s' : segment) : Prop :=
  seg_start s = seg_start s' /\ seg_end s = seg_end s' /\ seg_text s = seg_text s'.

(** Three lines whose windows share segments: the scan closes the windows
    0..1, 1..2 and 2..2. *)
Definition shared_lines : list segment :=
  [ Segment 0 10 10 "x"; Segment 10 15 25 "tips."; Segment 25 25 50 "y." ].

(** ** Scraping links *)

(** A character of the class [A-Za-z0-9_-]. *)
Definition is_id_char (c : ascii) : bool :=
  let n := PyStr.code c in
  (((65 <=? n) && (n <=? 90)) || ((97 <=? n) && (n <=? 122)) ||
   ((48 <=? n) && (n <=? 57)) || (n =? 95) || (n =? 45))%N.

(** The group [([A-Za-z0-9_-]{n})] at the head of [s]. *)
Fixpoint take_id (n : nat) (s : string) : option string :=
  match n with
  | O => Some EmptyString
  | S n' =>
      match s with
      | String c s' => if is_id_char c then String c <$> take_id n' s' else None
      | EmptyString => None
      end
  end.

Fixpoint string_drop (n : nat) (s : string) : string :=
  match n, s with
  | S n', String _ s' => string_drop n' s'
  | _, _ => s
  end.

(** A match of [watch\\?v=([A-Za-z0-9_-]{11})] at the head of [s]: the word
    watch, an optional backslash, v=, and the id; the id and the length of
    the match. *)
Definition match_watch (s : string) : option (string * nat) :=
  if String.prefix "watch\v=" s then
    (fun id => (id, 19%nat)) <$> take_id 11 (string_drop 8 s)
  else if String.prefix "watchv=" s then
    (fun id => (id, 18%nat)) <$> take_id 11 (string_drop 7 s)
  else None.

(** A match of [/shorts/([A-Za-z0-9_-]{11})] at the head of [s]. *)
Definition match_shorts (s : string) : option (string * nat) :=
  if String.prefix "/shorts/" s then
    (fun id => (id, 19%nat)) <$> take_id 11 (string_drop 8 s)
  else None.

(** [re.findall] for a pattern with one group that matches no empty string:
    the matches from left to right, each search starting where the match
    before it ended; [skip] characters are still covered by the last match. *)
Fixpoint findall (m : string -> option (string * nat)) (s : string) (skip : nat)
  : list string :=
  match s with
  | EmptyString => []
  | String _ s' =>
      match skip with
      | S k => findall m s' k
      | O =>
          match m s with
          | Some (id, len) => id :: findall m s' (len - 1)
          | None => findall m s' 0
          end
      end
  end.

(** Every character of the string is of the class [A-Za-z0-9_-]. *)
Fixpoint all_id_chars (s : string) : bool :=
  match s with
  | EmptyString => true
  | String c s' => is_id_char c && all_id_chars s'
  end.

Record scrape_response := ScrapeResponse {
  sc_count : nat;
  sc_links : list string
}.

Section Scrape.

Variable requests_get : nat -> string -> get_result.
(** [list(s)] for a set [s]: its elements, each once, in an order that the
    code does not control. *)
Variable list_of_set : gset string -> list string.

Definition scrape_links (url : string) : outcome scrape_response :=
  match requests_get 0 url with
  | Raises msg => HTTPException 400 ("Failed to fetch URL: " ++ msg)
  | Responds r =>
      if negb (status_code r =? 200)%Z then
        HTTPException 400 ("Non-200 status: " ++ pretty (status_code r))
      else
        let html := resp_text r in
        let ids : gset string := list_to_set (findall match_watch html 0) in
        let short_ids : gset string := list_to_set (findall match_shorts html 0) in
        let all_ids := list_of_set (ids ∪ short_ids) in
        let links := map (fun vid => ("https://www.youtube.com/watch?v=" ++ vid)%string) all_ids in
        Returns {| sc_count := length links; sc_links := take 50 links |}
  end.

End Scrape.


(** A page with an ordinary watch address and a shorts address, and one that
    also has the text watchv= in front of eleven id characters; the network
    gives the first for one address, the second for another, and refuses
    every other connection. *)
Definition plain_page : string :=
  "<a href='/watch?v=dQw4w9WgXcQ'>a</a> <a href='/shorts/abcdefghijk'>b</a>".

Definition odd_page : string :=
  "<a href='/shorts/abcdefghijk'>b</a> watchv=ABCDEFGHIJK_ /shorts/abcdefghijk".

Definition page_requests_get (n : nat) (url : string) : get_result :=
  if String.eqb url "https://www.youtube.com/@plain" then Responds (Response 200 plain_page)
  else if String.eqb url "https://www.youtube.com/@odd" then Responds (Response 200 odd_page)
  else Raises "connection refused".

(** * Facts about strings *)

Example strip_removes_outer_space :
  PyStr.strip "  a b  " = "a b"%string /\ PyStr.strip "   " = ""%string.
Proof. split; reflexivity. Qed.

Example lower_folds_case : PyStr.lower "Secret TIPS!" = "secret tips!"%string.
Proof. reflexivity. Qed.

Example contains_is_substring :
  PyStr.contains "win" "growing windows" = true /\
  PyStr.contains "how to" "show tools" = true /\
  PyStr.contains "trick" "tricycle" = false /\
  PyStr.contains "" "" = true.
Proof. repeat split; reflexivity. Qed.

Example search_terminal_marks :
  PyStr.search_terminal "really?" = true /\ PyStr.search_terminal "well, no" = false.
Proof. split; reflexivity. Qed.

Example join_with_space :
  PyStr.join " " ["hello world"; "this is"]%string = "hello world this is"%string.
Proof. reflexivity. Qed.

(** * Facts about numbers *)

Example round2_ties_to_even :
  round2 0.125 == 0.12 /\ round2 0.135 == 0.14 /\ round2 (-0.125) == -0.12 /\
  round2 20.006 == 20.01 /\ round2 20.004 == 20.
Proof. repeat split; reflexivity. Qed.

Section NumFacts.

Lemma Qlt_bool_iff (x y : Q) : Qlt_bool x y = true <-> x < y.
Proof.
  unfold Qlt_bool. rewrite negb_true_iff. split.
  - intros H. apply Qnot_le_lt. intros Hle.
    apply Qle_bool_iff in Hle. congruence.
  - intros H. destruct (Qle_bool y x) eqn:E; [|reflexivity].
    apply Qle_bool_iff in E. exfalso. exact (Qlt_not_le _ _ H E).
Qed.

Lemma Qle_bool_false (x y : Q) : Qle_bool x y = false <-> y < x.
Proof.
  rewrite <- Qlt_bool_iff. unfold Qlt_bool.
  destruct (Qle_bool x y); simpl; split; congruence.
Qed.

Lemma round_half_even_comp x y : x == y -> round_half_even x = round_half_even y.
Proof.
  intros H. unfold round_half_even.
  rewrite (Qfloor_comp _ _ H).
  assert (E : x - inject_Z (Qfloor y) == y - inject_Z (Qfloor y))
    by (rewrite H; reflexivity).
  rewrite (Qcompare_comp _ _ E _ _ (Qeq_refl (1#2))). reflexivity.
Qed.

(** The rounded value is within one half of the argument. *)
Lemma round_half_even_near x :
  x - (1#2) <= inject_Z (round_half_even x) <= x + (1#2).
Proof.
  unfold round_half_even.
  pose proof (Qfloor_le x) as Hlo. pose proof (Qlt_floor x) as Hhi.
  rewrite inject_Z_plus in Hhi. change (inject_Z 1) with 1 in Hhi.
  destruct (Qcompare_spec (x - inject_Z (Qfloor x)) (1#2)) as [E|E|E].
  - destruct (Z.even (Qfloor x)); rewrite ?inject_Z_plus;
      change (inject_Z 1) with 1; split; lra.
  - split; lra.
  - rewrite inject_Z_plus. change (inject_Z 1) with 1. split; lra.
Qed.

Lemma round_half_even_mono x y :
  x <= y -> (round_half_even x <= round_half_even y)%Z.
Proof.
  intros Hxy.
  destruct (Z_le_gt_dec (round_half_even x) (round_half_even y)) as [|Hgt];
    [assumption|].
  exfalso.
  assert (Hz : inject_Z (round_half_even y) + 1 <= inject_Z (round_half_even x)).
  { change 1 with (inject_Z 1). rewrite <- inject_Z_plus, <- Zle_Qle. lia. }
  pose proof (round_half_even_near x) as [Hx1 Hx2].
  pose proof (round_half_even_near y) as [Hy1 Hy2].
  assert (E : x == y) by lra.
  apply round_half_even_comp in E. lia.
Qed.

Lemma round_half_even_inject_Z z : round_half_even (inject_Z z) = z.
Proof.
  unfold round_half_even. rewrite Qfloor_Z.
  assert (E : inject_Z z - inject_Z z == 0) by lra.
  rewrite (Qcompare_comp _ _ E _ _ (Qeq_refl (1#2))). reflexivity.
Qed.

Lemma Qmake_100 z : z # 100 == inject_Z z * (1 # 100).
Proof. unfold Qeq, inject_Z. simpl. lia. Qed.

Lemma round2_comp x y : x == y -> round2 x = round2 y.
Proof.
  intros H. unfold round2. f_equal. apply round_half_even_comp.
  rewrite H. reflexivity.
Qed.

Lemma round2_mono x y : x <= y -> round2 x <= round2 y.
Proof.
  intros H. unfold round2.
  rewrite (Qmake_100 (round_half_even (x * 100))),
          (Qmake_100 (round_half_even (y * 100))).
  assert (Hm : (round_half_even (x * 100) <= round_half_even (y * 100))%Z).
  { apply round_half_even_mono. lra. }
  rewrite Zle_Qle in Hm.
  revert Hm. generalize (inject_Z (round_half_even (x * 100))),
    (inject_Z (round_half_even (y * 100))). intros a b Hab. lra.
Qed.

(** [round(x, 2)] moves [x] by at most half a hundredth. *)
Lemma round2_near x : x - (1#200) <= round2 x <= x + (1#200).
Proof.
  unfold round2. rewrite (Qmake_100 (round_half_even (x * 100))).
  pose proof (round_half_even_near (x * 100)) as H.
  revert H. generalize (inject_Z (round_half_even (x * 100))). intros a H. lra.
Qed.

(** Hundredths are left alone. *)
Lemma round2_hundredths z : round2 (z # 100) = z # 100.
Proof.
  unfold round2.
  rewrite (round_half_even_comp ((z # 100) * 100) (inject_Z z)).
  - rewrite round_half_even_inject_Z. reflexivity.
  - rewrite (Qmake_100 z). generalize (inject_Z z). intros a. lra.
Qed.




Lemma round2_of_hundredth (q : Q) : (exists z, q == z # 100) -> round2 q == q.
Proof.
  intros [z Hz]. rewrite (round2_comp _ _ Hz), round2_hundredths.
  symmetry. exact Hz.
Qed.

End NumFacts.

(** * Facts about ordered pairs of a list *)

Section OrdPairs.

Context {A : Type} (R : A -> A -> Prop).

Lemma FOP_snoc (l : list A) (c : A) :
  ForallOrdPairs R l -> Forall (fun a => R a c) l -> ForallOrdPairs R (l ++ [c]).
Proof.
  induction 1 as [|a l Ha Hl IH]; intros Hc; simpl.
  - constructor; [constructor | constructor].
  - inversion Hc; subst. constructor.
    + apply Forall_app; split; [assumption | constructor; [assumption | constructor]].
    + apply IH. assumption.
Qed.

Lemma FOP_sublist (l1 l2 : list A) :
  sublist l1 l2 -> ForallOrdPairs R l2 -> ForallOrdPairs R l1.
Proof.
  induction 1 as [|x l1 l2 Hs IH|x l1 l2 Hs IH]; intros H2.
  - constructor.
  - inversion H2; subst. constructor.
    + rewrite Forall_forall in *. intros y Hy. eauto using elem_of_sublist.
    + apply IH. assumption.
  - inversion H2; subst. apply IH. assumption.
Qed.

Lemma FOP_lookup (l : list A) (p q : nat) (a b : A) :
  ForallOrdPairs R l -> (p < q)%nat ->
  l !! p = Some a -> l !! q = Some b -> R a b.
Proof.
  intros H. revert p q. induction H as [|x l Hx Hl IH]; intros p q Hpq Hp Hq.
  - rewrite lookup_nil in Hp. discriminate.
  - destruct q as [|q]; [lia|]. destruct p as [|p]; simpl in *.
    + inversion Hp; subst. rewrite Forall_forall in Hx. apply Hx.
      eapply list_elem_of_lookup_2. eassumption.
    + eapply IH; [|eassumption..]. lia.
Qed.

End OrdPairs.

(** * The selection loop *)

Section Selection.

Variable top_k : Z.

Lemma overlaps_false (c a : clip) :
  overlaps c (interval a) = false -> disjoint a c.
Proof.
  unfold overlaps, interval, disjoint. simpl. rewrite negb_false_iff, orb_true_iff.
  intros [H|H]; apply Qle_bool_iff in H; [right | left]; assumption.
Qed.

(** The loop only appends, and what it appends is picked in order from the
    list it scans. *)
Lemma select_sublist (cs selected : list clip) (used : list (Q * Q)) :
  exists l, select top_k cs selected used = selected ++ l /\ sublist l cs.
Proof.
  revert selected used. induction cs as [|c cs IH]; intros selected used; simpl.
  - exists []. rewrite app_nil_r. split; [reflexivity | constructor].
  - destruct (top_k <=? Z.of_nat (length selected))%Z.
    + exists []. rewrite app_nil_r. split; [reflexivity | apply sublist_nil_l].
    + destruct (existsb (overlaps c) used).
      * destruct (IH selected used) as (l & -> & Hl).
        exists l. split; [reflexivity | by apply sublist_cons].
      * destruct (IH (selected ++ [c]) (used ++ [(start c, end_ c)])) as (l & -> & Hl).
        exists (c :: l). rewrite <- app_assoc. split; [reflexivity | by apply sublist_skip].
Qed.

Lemma select_length (cs selected : list clip) (used : list (Q * Q)) :
  (Z.of_nat (length selected) <= Z.max top_k 0)%Z ->
  (Z.of_nat (length (select top_k cs selected used)) <= Z.max top_k 0)%Z.
Proof.
  revert selected used. induction cs as [|c cs IH]; intros selected used Hlen; simpl.
  - assumption.
  - destruct (Z.leb_spec top_k (Z.of_nat (length selected))) as [Hge|Hlt].
    + assumption.
    + destruct (existsb (overlaps c) used); apply IH; [assumption|].
      rewrite length_app. simpl. lia.
Qed.

(** [used] mirrors [selected], and every accepted clip is disjoint from the
    ones accepted before it. *)
Lemma select_disjoint (cs selected : list clip) (used : list (Q * Q)) :
  used = map interval selected ->
  ForallOrdPairs disjoint selected ->
  ForallOrdPairs disjoint (select top_k cs selected used).
Proof.
  revert selected used. induction cs as [|c cs IH]; intros selected used Hused Hsel; simpl.
  - assumption.
  - destruct (top_k <=? Z.of_nat (length selected))%Z; [assumption|].
    destruct (existsb (overlaps c) used) eqn:Hov.
    + by apply IH.
    + apply IH.
      * rewrite Hused, map_app. reflexivity.
      * apply FOP_snoc; [assumption|].
        rewrite Forall_forall. intros a Ha. apply overlaps_false.
        destruct (overlaps c (interval a)) eqn:E; [|reflexivity].
        assert (existsb (overlaps c) used = true); [|congruence].
        apply existsb_exists. exists (interval a). split; [|assumption].
        rewrite Hused. apply in_map. by apply list_elem_of_In.
Qed.

Lemma select_nonpositive (cs : list clip) :
  (top_k <= 0)%Z -> select top_k cs [] [] = [].
Proof.
  intros H. destruct cs as [|c cs]; simpl; [reflexivity|].
  change (Z.of_nat 0) with 0%Z.
  destruct (Z.leb_spec top_k 0); [reflexivity | lia].
Qed.

End Selection.

Lemma disjoint_sym (a b : clip) : disjoint a b -> disjoint b a.
Proof. unfold disjoint. intros [H|H]; [right | left]; exact H. Qed.

Lemma FOP_non_overlapping (l : list clip) :
  ForallOrdPairs disjoint l -> non_overlapping l.
Proof.
  intros H p q a b Hpq Hp Hq.
  destruct (Nat.lt_total p q) as [Hlt|[Heq|Hgt]]; [|contradiction|].
  - eapply FOP_lookup; eassumption.
  - apply disjoint_sym. eapply FOP_lookup; eassumption.
Qed.

(** * The stable sort *)

Section Sorting.

(** The candidates in the order the scan produced them. *)
Variable L : list clip.

Abbreviation before := (before L).
Abbreviation ranked := (ranked L).

Lemma Forall_insert_desc (P : clip -> Prop) (c : clip) (l : list clip) :
  P c -> Forall P l -> Forall P (insert_desc c l).
Proof.
  intros Hc. induction 1 as [|x l Hx Hl IH]; simpl.
  - constructor; [assumption | constructor].
  - destruct (Qle_bool (score c) (score x)); constructor; try assumption.
    constructor; assumption.
Qed.

Lemma insert_desc_ranked (c : clip) (acc : list clip) :
  ForallOrdPairs ranked acc ->
  Forall (fun x => before x c) acc ->
  ForallOrdPairs ranked (insert_desc c acc).
Proof.
  induction 1 as [|x l Hx Hl IH]; intros Hc; simpl.
  - constructor; constructor.
  - inversion Hc as [|? ? Hxc Hlc]; subst.
    destruct (Qle_bool (score c) (score x)) eqn:E.
    + apply Qle_bool_iff in E. constructor.
      * apply Forall_insert_desc; [|assumption]. split; [assumption | intros _; assumption].
      * by apply IH.
    + apply Qle_bool_false in E. constructor; [|constructor; assumption].
      constructor.
      * split; [apply Qlt_le_weak; assumption|].
        intros Heq. rewrite Heq in E. exfalso. exact (Qlt_irrefl _ E).
      * rewrite Forall_forall in *. intros y Hy. destruct (Hx y Hy) as [Hle _].
        split; [lra|]. intros Heq. rewrite Heq in E. lra.
Qed.

Lemma sort_fold_ranked (rest pre acc : list clip) :
  L = pre ++ rest ->
  Forall (fun x => exists p, (p < length pre)%nat /\ L !! p = Some x) acc ->
  ForallOrdPairs ranked acc ->
  let r := fold_left (fun acc c => insert_desc c acc) rest acc in
  ForallOrdPairs ranked r /\ Forall (fun x => x ∈ L) r.
Proof.
  revert pre acc. induction rest as [|c rest IH]; intros pre acc HL Hacc Hr; simpl.
  - split; [assumption|]. rewrite Forall_forall in *. intros x Hx.
    destruct (Hacc x Hx) as (p & _ & Hp). eapply list_elem_of_lookup_2; eassumption.
  - assert (Hc : L !! length pre = Some c).
    { rewrite HL. rewrite lookup_app_r by lia. by rewrite Nat.sub_diag. }
    apply (IH (pre ++ [c])).
    + rewrite <- app_assoc. exact HL.
    + apply Forall_insert_desc.
      * exists (length pre). rewrite length_app. simpl. split; [lia | assumption].
      * rewrite Forall_forall in *. intros x Hx. destruct (Hacc x Hx) as (p & Hp & Hx').
        exists p. rewrite length_app. simpl. split; [lia | assumption].
    + apply insert_desc_ranked; [assumption|].
      rewrite Forall_forall in *. intros x Hx. destruct (Hacc x Hx) as (p & Hp & Hx').
      exists p, (length pre). auto.
Qed.

Lemma insert_desc_perm (c : clip) (l : list clip) : insert_desc c l ≡ₚ c :: l.
Proof.
  induction l as [|x l IH]; simpl; [reflexivity|].
  destruct (Qle_bool (score c) (score x)); [|reflexivity].
  rewrite IH. apply Permutation_swap.
Qed.

Lemma sort_fold_perm (rest acc : list clip) :
  fold_left (fun acc c => insert_desc c acc) rest acc ≡ₚ rest ++ acc.
Proof.
  revert acc. induction rest as [|c rest IH]; intros acc; simpl; [reflexivity|].
  rewrite IH, insert_desc_perm. symmetry. apply Permutation_middle.
Qed.

(** The sort rearranges the list. *)
Lemma sort_desc_perm : sort_desc L ≡ₚ L.
Proof. unfold sort_desc. rewrite sort_fold_perm. by rewrite app_nil_r. Qed.

(** The sort is by descending score, stable, and invents no element. *)
Lemma sort_desc_ranked :
  ForallOrdPairs ranked (sort_desc L) /\ Forall (fun x => x ∈ L) (sort_desc L).
Proof.
  unfold sort_desc. apply (sort_fold_ranked L [] []); [reflexivity | constructor | constructor].
Qed.

End Sorting.

(** * The window scan *)

Section ScanFacts.

Variable segments : list segment.
Variables min_len max_len : Q.

Abbreviation inner_loop := (inner_loop segments min_len max_len).
Abbreviation outer_loop := (outer_loop segments min_len max_len).
Abbreviation scan_trace := (scan_trace segments min_len max_len).
Abbreviation in_window := (in_window segments max_len).
Abbreviation closes := (closes segments min_len max_len).
Abbreviation scanned := (scanned segments min_len max_len).
Abbreviation texts := (window_texts segments).
Abbreviation make_candidate := (make_candidate min_len max_len).
Abbreviation inner_result := (inner_result segments min_len max_len).
Abbreviation trace_from := (trace_from segments min_len max_len).

Lemma window_texts_one (j : nat) (sj : segment) :
  segments !! j = Some sj -> texts j j = [seg_text sj].
Proof.
  intros H. unfold window_texts.
  rewrite (drop_S _ _ _ H). replace (j + 1 - j)%nat with 1%nat by lia.
  reflexivity.
Qed.

Lemma window_texts_cons (j j' : nat) (sj : segment) :
  segments !! j = Some sj -> (j < j')%nat ->
  texts j j' = seg_text sj :: texts (j + 1) j'.
Proof.
  intros H Hlt. unfold window_texts.
  rewrite (drop_S _ _ _ H).
  replace (j' + 1 - j)%nat with (S (j' + 1 - (j + 1))) by lia.
  replace (S j) with (j + 1)%nat by lia. reflexivity.
Qed.

(** One more index scanned. *)
Lemma scanned_step (start_t : Q) (j j' : nat) :
  in_window start_t j -> ~ closes start_t j ->
  scanned start_t (j + 1) j' -> scanned start_t j j'.
Proof.
  intros Hin Hnc Hs k Hk.
  destruct (Nat.eq_dec k j) as [->|Hne]; [split; assumption|].
  apply Hs. lia.
Qed.

(** The inner loop leaves through its guard or through [break] when it is
    given more fuel than there are segments left, and then it has done what
    [inner_result] says. *)
Lemma inner_loop_spec (fuel : nat) (start_t : Q) (j : nat) (window_text : list string) :
  (j <= length segments)%nat -> (length segments - j < fuel)%nat ->
  exists emitted j',
    inner_loop fuel start_t j window_text = Some (emitted, j') /\
    (j <= j' <= length segments)%nat /\
    scanned start_t j j' /\
    match emitted with
    | Some c =>
        closes start_t j' /\
        exists sj, segments !! j' = Some sj /\
          c = make_candidate start_t sj (window_text ++ texts j j')
    | None => ~ in_window start_t j'
    end.
Proof.
  revert j window_text.
  induction fuel as [|fuel IH]; intros j window_text Hj Hfuel; [lia|].
  simpl. destruct (segments !! j) as [sj|] eqn:Hsj.
  2:{ exists None, j. split; [reflexivity|]. split; [lia|].
      split; [intros k Hk; lia|].
      intros (sk & Hk & _). congruence. }
  assert (Hlt : (j < length segments)%nat) by (eapply lookup_lt_Some; eassumption).
  destruct (Qlt_bool (seg_end sj - start_t) max_len) eqn:Hmax.
  2:{ exists None, j. split; [reflexivity|]. split; [lia|].
      split; [intros k Hk; lia|].
      intros (sk & Hk & Hlt'). rewrite Hsj in Hk. inversion Hk; subst sk.
      apply Qlt_bool_iff in Hlt'. congruence. }
  apply Qlt_bool_iff in Hmax.
  assert (Hin : in_window start_t j) by (exists sj; auto).
  assert (Hgo : ~ closes start_t j ->
    exists emitted j',
      inner_loop fuel start_t (j + 1) (window_text ++ [seg_text sj]) = Some (emitted, j') /\
      (j <= j' <= length segments)%nat /\
      scanned start_t j j' /\
      match emitted with
      | Some c =>
          closes start_t j' /\
          exists sj', segments !! j' = Some sj' /\
            c = make_candidate start_t sj' (window_text ++ texts j j')
      | None => ~ in_window start_t j'
      end).
  { intros Hnc.
    destruct (IH (j + 1)%nat (window_text ++ [seg_text sj])) as (em & j' & Heq & Hb & Hs & Hpost);
      [lia | lia |].
    exists em, j'. split; [exact Heq|]. split; [lia|].
    split; [apply scanned_step; assumption|].
    destruct em as [c|]; [|exact Hpost].
    destruct Hpost as (Hcl & sj' & Hsj' & ->). split; [exact Hcl|].
    exists sj'. split; [exact Hsj'|].
    rewrite (window_texts_cons j j' sj Hsj) by lia.
    rewrite <- app_assoc. reflexivity. }
  destruct (Qle_bool min_len (seg_end sj - start_t)) eqn:Hmin.
  - destruct (break_condition segments j sj) eqn:Hbrk.
    + exists (Some (make_candidate start_t sj (window_text ++ [seg_text sj]))), j.
      split; [reflexivity|]. split; [lia|]. split; [intros k Hk; lia|].
      split.
      * exists sj. apply Qle_bool_iff in Hmin. auto.
      * exists sj. split; [exact Hsj|]. rewrite (window_texts_one j sj Hsj). reflexivity.
    + apply Hgo. intros (sk & Hk & _ & _ & Hb). rewrite Hsj in Hk.
      inversion Hk; subst sk. congruence.
  - apply Hgo. intros (sk & Hk & Hm & _). rewrite Hsj in Hk.
    inversion Hk; subst sk. apply Qle_bool_iff in Hm. congruence.
Qed.

(** The outer loop leaves through its guard when each loop is given more
    fuel than there are segments; the run is a [trace_from], and the
    candidate list grows by what the iterations appended. *)
Lemma outer_loop_spec (gas fuel : nat) (i : nat) :
  (length segments < gas)%nat ->
  (i <= length segments)%nat -> (length segments - i < fuel)%nat ->
  exists tr,
    scan_trace gas fuel i = Some tr /\
    trace_from i tr /\
    forall candidates,
      outer_loop gas fuel i candidates = Some (candidates ++ omap it_emitted tr).
Proof.
  intros Hgas. revert i.
  induction fuel as [|fuel IH]; intros i Hi Hfuel; [lia|].
  simpl. destruct (segments !! i) as [si|] eqn:Hsi.
  2:{ exists []. split; [reflexivity|]. split.
      - constructor. by apply lookup_ge_None.
      - intros candidates. simpl. by rewrite app_nil_r. }
  assert (Hlt : (i < length segments)%nat) by (eapply lookup_lt_Some; eassumption).
  destruct (inner_loop_spec gas (seg_start si) i []) as (em & j & Heq & Hb & Hs & Hpost);
    [lia | lia |].
  rewrite Heq. simpl.
  destruct (IH (Nat.max (i + 1) j)) as (tr & Htr & Hfrom & Hout); [lia | lia |].
  rewrite Htr. simpl.
  exists (Iteration i em j :: tr). split; [reflexivity|]. split.
  - econstructor; [eassumption | | assumption].
    split; [lia|]. split; [assumption|]. exact Hpost.
  - intros candidates. rewrite Hout. f_equal. rewrite <- app_assoc. f_equal.
    destruct em; reflexivity.
Qed.

Lemma inner_loop_fuel_mono (fuel fuel' : nat) (start_t : Q) (j : nat)
      (window_text : list string) (r : option clip * nat) :
  (fuel <= fuel')%nat ->
  inner_loop fuel start_t j window_text = Some r ->
  inner_loop fuel' start_t j window_text = Some r.
Proof.
  revert fuel' j window_text.
  induction fuel as [|fuel IH]; intros fuel' j window_text Hle H; [discriminate|].
  destruct fuel' as [|fuel']; [lia|]. simpl in *.
  destruct (segments !! j) as [sj|]; [|exact H].
  destruct (Qlt_bool (seg_end sj - start_t) max_len); [|exact H].
  destruct (Qle_bool min_len (seg_end sj - start_t)).
  - destruct (break_condition segments j sj); [exact H|]. apply IH; [lia | exact H].
  - apply IH; [lia | exact H].
Qed.

Lemma scan_trace_fuel_mono (gas gas' fuel fuel' : nat) (i : nat) (tr : list iteration) :
  (gas <= gas')%nat -> (fuel <= fuel')%nat ->
  scan_trace gas fuel i = Some tr -> scan_trace gas' fuel' i = Some tr.
Proof.
  intros Hgas. revert fuel' i tr.
  induction fuel as [|fuel IH]; intros fuel' i tr Hle H; [discriminate|].
  destruct fuel' as [|fuel']; [lia|]. simpl in *.
  destruct (segments !! i) as [si|]; [|exact H].
  destruct (inner_loop gas (seg_start si) i []) as [[em j]|] eqn:Hin; [|discriminate].
  rewrite (inner_loop_fuel_mono gas gas' _ _ _ _ Hgas Hin). simpl in *.
  destruct (scan_trace gas fuel (Nat.max (i + 1) j)) as [tr'|] eqn:Htr; [|discriminate].
  rewrite (IH fuel' _ tr' ltac:(lia) Htr). exact H.
Qed.

(** *** Shape of a run *)

Lemma trace_from_lower (i : nat) (tr : list iteration) :
  trace_from i tr -> Forall (fun it => (i <= it_i it)%nat) tr.
Proof.
  induction 1 as [i Hi|i si em j tr Hsi Hres Htr IH].
  - constructor.
  - constructor; [simpl; lia|].
    eapply Forall_impl; [exact IH|]. simpl. intros it Hit. lia.
Qed.

(** A later iteration starts strictly further on, and not before the index
    at which an earlier iteration left its inner loop. *)
Lemma trace_from_order (i : nat) (tr : list iteration) :
  trace_from i tr ->
  ForallOrdPairs (fun a b => (it_i a < it_i b)%nat /\ (it_j a <= it_i b)%nat) tr.
Proof.
  induction 1 as [i Hi|i si em j tr Hsi Hres Htr IH].
  - constructor.
  - constructor; [|exact IH].
    apply trace_from_lower in Htr.
    eapply Forall_impl; [exact Htr|]. simpl. intros it Hit. lia.
Qed.

Lemma trace_from_results (i : nat) (tr : list iteration) :
  trace_from i tr ->
  Forall (fun it => exists si, segments !! it_i it = Some si /\
            inner_result (seg_start si) (it_i it) (it_emitted it) (it_j it)) tr.
Proof.
  induction 1 as [i Hi|i si em j tr Hsi Hres Htr IH].
  - constructor.
  - constructor; [|exact IH]. exists si. simpl. auto.
Qed.

Lemma trace_from_head (i : nat) (it : iteration) (tr : list iteration) :
  trace_from i (it :: tr) -> it_i it = i.
Proof. inversion 1; reflexivity. Qed.

(** The cursor-advance rule between consecutive iterations. *)
Lemma trace_from_next (i : nat) (tr : list iteration) (p : nat) (a b : iteration) :
  trace_from i tr -> tr !! p = Some a -> tr !! S p = Some b ->
  it_i b = Nat.max (it_i a + 1) (it_j a).
Proof.
  intros H. revert p. induction H as [i Hi|i si em j tr Hsi Hres Htr IH]; intros p Hp Hq.
  - rewrite lookup_nil in Hp. discriminate.
  - destruct p as [|p]; simpl in *.
    + inversion Hp; subst a. simpl. destruct tr as [|x tr]; [discriminate|].
      simpl in Hq. inversion Hq; subst x. eapply trace_from_head. eassumption.
    + eapply IH; eassumption.
Qed.

(** The first index at which a window can be closed is the only one the
    cursor can reach. *)
Lemma closing_index_unique (start_t : Q) (i j j' : nat) :
  scanned start_t i j -> closes start_t j -> (i <= j)%nat ->
  scanned start_t i j' -> closes start_t j' -> (i <= j')%nat ->
  j = j'.
Proof.
  intros Hs Hc Hi Hs' Hc' Hi'.
  destruct (Nat.lt_total j j') as [Hlt|[Heq|Hgt]]; [|assumption|].
  - destruct (Hs' j) as [_ Hn]; [lia|]. contradiction.
  - destruct (Hs j') as [_ Hn]; [lia|]. contradiction.
Qed.

Lemma closes_in_window (start_t : Q) (j : nat) :
  closes start_t j -> in_window start_t j.
Proof. intros (sj & Hsj & _ & Hlt & _). exists sj. auto. Qed.

(** An iteration appends a candidate exactly when its inner cursor can
    reach an index that closes the window. *)
Lemma inner_result_emits (start_t : Q) (i : nat) (emitted : option clip) (j : nat) :
  inner_result start_t i emitted j ->
  is_Some emitted <->
  exists j', (i <= j')%nat /\ scanned start_t i j' /\ closes start_t j'.
Proof.
  intros (Hb & Hs & Hpost). split.
  - intros [c ->]. destruct Hpost as [Hc _]. exists j. split; [lia | auto].
  - intros (j' & Hi' & Hs' & Hc'). destruct emitted as [c|]; [eauto|].
    exfalso. destruct (Nat.lt_total j j') as [Hlt|[Heq|Hgt]].
    + destruct (Hs' j) as [Hin _]; [lia|]. contradiction.
    + subst j'. apply Hpost. by apply closes_in_window.
    + destruct (Hs j') as [_ Hn]; [lia|]. contradiction.
Qed.

(** *** The scan as a whole *)

Lemma window_scan_trace (fuel : nat) :
  (length segments < fuel)%nat ->
  exists tr,
    scan_trace fuel fuel 0 = Some tr /\
    trace_from 0 tr /\
    window_scan segments min_len max_len fuel = Some (omap it_emitted tr).
Proof.
  intros Hfuel.
  destruct (outer_loop_spec fuel fuel 0%nat) as (tr & Htr & Hfrom & Hout); [lia..|].
  exists tr. split; [exact Htr|]. split; [exact Hfrom|].
  unfold window_scan. rewrite Hout. reflexivity.
Qed.

(** More fuel changes nothing. *)
Lemma window_scan_fuel (fuel : nat) :
  (length segments < fuel)%nat ->
  scan_trace fuel fuel 0 = scan_trace (S (length segments)) (S (length segments)) 0 /\
  window_scan segments min_len max_len fuel =
    window_scan segments min_len max_len (S (length segments)).
Proof.
  intros Hfuel.
  destruct (window_scan_trace (S (length segments))) as (tr & Htr & _ & Hws); [lia|].
  destruct (window_scan_trace fuel) as (tr' & Htr' & _ & Hws'); [lia|].
  assert (tr' = tr) as ->.
  { apply (scan_trace_fuel_mono _ fuel _ fuel) in Htr; [congruence | lia | lia]. }
  split; congruence.
Qed.

End ScanFacts.

(** * The suggester as a whole *)

Section SuggestFacts.

Variable segments : list segment.
Variables min_len max_len : Q.

Lemma trace_spec :
  scan_trace segments min_len max_len (S (length segments)) (S (length segments)) 0
    = Some (trace segments min_len max_len) /\
  trace_from segments min_len max_len 0 (trace segments min_len max_len) /\
  window_scan segments min_len max_len (S (length segments))
    = Some (candidates segments min_len max_len) /\
  candidates segments min_len max_len = omap it_emitted (trace segments min_len max_len).
Proof.
  destruct (window_scan_trace segments min_len max_len (S (length segments)))
    as (tr & Htr & Hfrom & Hws); [lia|].
  unfold trace, candidates. rewrite Htr, Hws. simpl. auto.
Qed.

Lemma suggest_fuel_eq (top_k : Z) (fuel : nat) :
  (length segments < fuel)%nat ->
  suggest_clips_from_segments_fuel fuel segments min_len max_len top_k
    = Some (select top_k (sort_desc (candidates segments min_len max_len)) [] []).
Proof.
  intros Hfuel.
  destruct trace_spec as (_ & _ & Hws & _).
  destruct (window_scan_fuel segments min_len max_len fuel Hfuel) as [_ Hsame].
  unfold suggest_clips_from_segments_fuel.
  destruct segments as [|s0 rest] eqn:Hsegs.
  - unfold candidates. reflexivity.
  - rewrite Hsame, Hws. reflexivity.
Qed.

Lemma suggest_select (top_k : Z) :
  suggest_clips_from_segments segments min_len max_len top_k
    = select top_k (sort_desc (candidates segments min_len max_len)) [] [].
Proof.
  unfold suggest_clips_from_segments. rewrite suggest_fuel_eq by lia. reflexivity.
Qed.

(** The returned clips are picked, in order, from the sorted candidates. *)
Lemma suggest_sublist (top_k : Z) :
  sublist (suggest_clips_from_segments segments min_len max_len top_k)
          (sort_desc (candidates segments min_len max_len)).
Proof.
  rewrite suggest_select.
  destruct (select_sublist top_k (sort_desc (candidates segments min_len max_len)) [] [])
    as (l & -> & Hl).
  exact Hl.
Qed.

Lemma suggest_elem (top_k : Z) (c : clip) :
  c ∈ suggest_clips_from_segments segments min_len max_len top_k ->
  c ∈ candidates segments min_len max_len.
Proof.
  intros Hc. pose proof (elem_of_sublist _ _ _ Hc (suggest_sublist top_k)) as Hs.
  destruct (sort_desc_ranked (candidates segments min_len max_len)) as [_ Hall].
  rewrite Forall_forall in Hall. by apply Hall.
Qed.

(** Every candidate is the dictionary built for a window [i..j] that the
    scan closed. *)
Lemma candidate_window (c : clip) :
  c ∈ candidates segments min_len max_len ->
  exists i j si sj,
    segments !! i = Some si /\ segments !! j = Some sj /\ (i <= j)%nat /\
    scanned segments min_len max_len (seg_start si) i j /\
    closes segments min_len max_len (seg_start si) j /\
    c = make_candidate min_len max_len (seg_start si) sj (window_texts segments i j).
Proof.
  destruct trace_spec as (_ & Hfrom & _ & ->).
  intros Hc. apply list_elem_of_omap in Hc as (it & Hit & Hem).
  apply trace_from_results in Hfrom. rewrite Forall_forall in Hfrom.
  destruct (Hfrom it Hit) as (si & Hsi & Hb & Hs & Hpost).
  rewrite Hem in Hpost. destruct Hpost as (Hcl & sj & Hsj & ->).
  exists (it_i it), (it_j it), si, sj.
  split; [assumption|]. split; [assumption|]. split; [lia|]. auto.
Qed.

End SuggestFacts.

(** * Properties of the selection *)

(** C1.  The clips returned by one call are pairwise non-overlapping under
    the half-open test: for every two clips [a], [b] at different positions
    of the result, [a.end <= b.start] or [a.start >= b.end].  Clips that only
    share a boundary instant pass the test. *)
Theorem suggest_clips_non_overlapping
    (segments : list segment) (min_len max_len : Q) (top_k : Z)
    (p q : nat) (a b : clip) :
  p <> q ->
  suggest_clips_from_segments segments min_len max_len top_k !! p = Some a ->
  suggest_clips_from_segments segments min_len max_len top_k !! q = Some b ->
  end_ a <= start b \/ start a >= end_ b.
Proof.
  rewrite suggest_select. intros Hpq Hp Hq.
  assert (H : non_overlapping
                (select top_k (sort_desc (candidates segments min_len max_len)) [] [])).
  { apply FOP_non_overlapping, select_disjoint; [reflexivity | constructor]. }
  exact (H p q a b Hpq Hp Hq).
Qed.

(** Two clips that meet at the instant 25 are both returned. *)
Lemma suggest_clips_non_overlapping_witness :
  exists a b,
    suggest_clips_from_segments adjacent_lines 20 60 3 !! 0%nat = Some a /\
    suggest_clips_from_segments adjacent_lines 20 60 3 !! 1%nat = Some b /\
    end_ a == 25 /\ start b == 25 /\
    (end_ a <= start b \/ start a >= end_ b).
Proof.
  eexists _, _. split; [reflexivity|]. split; [reflexivity|].
  split; [reflexivity|]. split; [reflexivity|].
  apply (suggest_clips_non_overlapping adjacent_lines 20 60 3 0 1);
    [discriminate | reflexivity | reflexivity].
Defined.

(** C10.  With [top_k <= 0] the result is empty, whatever the segments and
    the length bounds. *)
Theorem suggest_nonpositive_top_k
    (segments : list segment) (min_len max_len : Q) (top_k : Z) :
  (top_k <= 0)%Z ->
  suggest_clips_from_segments segments min_len max_len top_k = [].
Proof.
  intros H. rewrite suggest_select. by apply select_nonpositive.
Qed.

Lemma suggest_nonpositive_top_k_witness :
  (0 <= 0)%Z /\ candidates scenario 20 60 <> [] /\
  suggest_clips_from_segments scenario 20 60 0 = [].
Proof.
  split; [lia|]. split; [discriminate|].
  apply (suggest_nonpositive_top_k scenario 20 60 0). lia.
Defined.

Lemma omap_before {A B : Type} (f : A -> option B) (l : list A)
    (p q : nat) (a b : B) :
  (p < q)%nat -> omap f l !! p = Some a -> omap f l !! q = Some b ->
  exists p' q' x y,
    (p' < q')%nat /\ l !! p' = Some x /\ l !! q' = Some y /\
    f x = Some a /\ f y = Some b.
Proof.
  revert p q. induction l as [|x l IH]; intros p q Hpq Hp Hq.
  - destruct p; discriminate.
  - simpl in Hp, Hq. destruct (f x) as [y|] eqn:E.
    + destruct q as [|q]; [lia|]. destruct p as [|p]; simpl in Hp, Hq.
      * inversion Hp; subst y.
        apply list_elem_of_lookup_2, list_elem_of_omap in Hq as (z & Hz & Hfz).
        apply list_elem_of_lookup_1 in Hz as (k & Hk).
        exists 0%nat, (S k), x, z. simpl. repeat split; try assumption. lia.
      * destruct (IH p q) as (p' & q' & u & v & Hlt & Hu & Hv & Hfu & Hfv);
          [lia | assumption | assumption |].
        exists (S p'), (S q'), u, v. simpl. repeat split; try assumption. lia.
    + destruct (IH p q) as (p' & q' & u & v & Hlt & Hu & Hv & Hfu & Hfv);
        [lia | assumption | assumption |].
      exists (S p'), (S q'), u, v. simpl. repeat split; try assumption. lia.
Qed.

(** C4, amended.  The result has at most [max top_k 0] clips and is ordered
    by non-increasing score; of two returned clips with equal scores, the one
    standing first was produced by an earlier outer index of the scan (the
    sort is stable). *)
Theorem suggest_ranked
    (segments : list segment) (min_len max_len : Q) (top_k : Z) :
  (Z.of_nat (length (suggest_clips_from_segments segments min_len max_len top_k))
     <= Z.max top_k 0)%Z /\
  forall (p q : nat) (a b : clip),
    (p < q)%nat ->
    suggest_clips_from_segments segments min_len max_len top_k !! p = Some a ->
    suggest_clips_from_segments segments min_len max_len top_k !! q = Some b ->
    score b <= score a /\
    (score a == score b ->
     exists ita itb,
       ita ∈ trace segments min_len max_len /\
       itb ∈ trace segments min_len max_len /\
       it_emitted ita = Some a /\ it_emitted itb = Some b /\
       (it_i ita < it_i itb)%nat).
Proof.
  split.
  - rewrite suggest_select. apply select_length. simpl. lia.
  - intros p q a b Hpq Hp Hq.
    destruct (sort_desc_ranked (candidates segments min_len max_len)) as [Hr _].
    pose proof (FOP_sublist _ _ _ (suggest_sublist segments min_len max_len top_k) Hr) as Hres.
    destruct (FOP_lookup _ _ _ _ _ _ Hres Hpq Hp Hq) as [Hle Hst].
    split; [exact Hle|]. intros Heq.
    destruct (Hst Heq) as (p' & q' & Hlt & Hp' & Hq').
    destruct (trace_spec segments min_len max_len) as (_ & Hfrom & _ & Hc).
    rewrite Hc in Hp', Hq'.
    destruct (omap_before _ _ _ _ _ _ Hlt Hp' Hq')
      as (p'' & q'' & ita & itb & Hlt' & Hita & Hitb & Hea & Heb).
    exists ita, itb.
    split; [eapply list_elem_of_lookup_2; eassumption|].
    split; [eapply list_elem_of_lookup_2; eassumption|].
    split; [assumption|]. split; [assumption|].
    apply trace_from_order in Hfrom.
    exact (proj1 (FOP_lookup _ _ _ _ _ _ Hfrom Hlt' Hita Hitb)).
Qed.

(** Two clips with the same score come back in the order of their outer
    indices. *)
Lemma suggest_ranked_witness :
  exists a b,
    suggest_clips_from_segments adjacent_lines 20 60 3 !! 0%nat = Some a /\
    suggest_clips_from_segments adjacent_lines 20 60 3 !! 1%nat = Some b /\
    score a == score b /\
    score b <= score a /\
    exists ita itb,
      it_emitted ita = Some a /\ it_emitted itb = Some b /\ (it_i ita < it_i itb)%nat.
Proof.
  eexists _, _. split; [reflexivity|]. split; [reflexivity|].
  split; [reflexivity|].
  destruct (proj2 (suggest_ranked adjacent_lines 20 60 3) 0%nat 1%nat _ _
              Nat.lt_0_1 eq_refl eq_refl) as [Hle Hst].
  split; [exact Hle|].
  destruct (Hst ltac:(reflexivity)) as (ita & itb & _ & _ & Ha & Hb & Hlt).
  exists ita, itb. auto.
Defined.

(** C4 as stated fails for a negative [top_k]: the result is empty, and its
    length 0 is not at most -1. *)
Lemma suggest_length_negative_top_k :
  ~ (Z.of_nat (length (suggest_clips_from_segments scenario 20 60 (-1))) <= -1)%Z.
Proof. vm_compute. intros H. apply H. reflexivity. Qed.

(** * Properties of the window scan *)

(** C9.  The function terminates on every segment list: with any fuel above
    the number of segments both loops leave through their guards and the
    result is the same.  In the run, every iteration has its outer index
    below [n], its inner index between the outer index and [n], and the next
    outer index is [max (i+1) j], strictly larger. *)
Theorem suggest_terminates
    (segments : list segment) (min_len max_len : Q) (top_k : Z) (fuel : nat) :
  (length segments < fuel)%nat ->
  suggest_clips_from_segments_fuel fuel segments min_len max_len top_k
    = Some (suggest_clips_from_segments segments min_len max_len top_k) /\
  scan_trace segments min_len max_len fuel fuel 0
    = Some (trace segments min_len max_len) /\
  (forall it, it ∈ trace segments min_len max_len ->
     (it_i it < length segments)%nat /\ (it_i it <= it_j it <= length segments)%nat) /\
  (forall p a b,
     trace segments min_len max_len !! p = Some a ->
     trace segments min_len max_len !! S p = Some b ->
     it_i b = Nat.max (it_i a + 1) (it_j a) /\ (it_i a < it_i b)%nat).
Proof.
  intros Hfuel.
  destruct (trace_spec segments min_len max_len) as (Htr & Hfrom & _ & _).
  split; [|split; [|split]].
  - rewrite suggest_fuel_eq by assumption. by rewrite suggest_select.
  - destruct (window_scan_fuel segments min_len max_len fuel Hfuel) as [-> _]. exact Htr.
  - intros it Hit. apply trace_from_results in Hfrom. rewrite Forall_forall in Hfrom.
    destruct (Hfrom it Hit) as (si & Hsi & Hb & _).
    apply lookup_lt_Some in Hsi. lia.
  - intros p a b Ha Hb.
    pose proof (trace_from_next _ _ _ _ _ _ _ _ Hfrom Ha Hb) as Hnext.
    split; [exact Hnext | lia].
Qed.

Lemma suggest_terminates_witness :
  suggest_clips_from_segments_fuel 3 scenario 20 60 3
    = Some (suggest_clips_from_segments scenario 20 60 3) /\
  length (trace scenario 20 60) = 2%nat.
Proof.
  split; [|reflexivity].
  apply (suggest_terminates scenario 20 60 3 3). simpl. lia.
Defined.

(** C8, amended.  A later iteration of the scan starts strictly further on
    than an earlier one (forward progress), and not before the index [j] at
    which the earlier one left its inner loop: of a closed window [i..j], the
    segments [i..j-1] never start a later window.  The next outer index is
    [max (i+1) j], so the closing segment [j] itself starts the next window
    when [j > i]. *)
Theorem cursor_advance
    (segments : list segment) (min_len max_len : Q) (p q : nat) (a b : iteration) :
  (p < q)%nat ->
  trace segments min_len max_len !! p = Some a ->
  trace segments min_len max_len !! q = Some b ->
  (it_i a < it_i b)%nat /\ (it_j a <= it_i b)%nat /\
  (q = S p -> it_i b = Nat.max (it_i a + 1) (it_j a)).
Proof.
  intros Hpq Ha Hb.
  destruct (trace_spec segments min_len max_len) as (_ & Hfrom & _ & _).
  pose proof (trace_from_order _ _ _ _ _ Hfrom) as Hord.
  destruct (FOP_lookup _ _ _ _ _ _ Hord Hpq Ha Hb) as [H1 H2].
  split; [exact H1|]. split; [exact H2|].
  intros ->. eapply trace_from_next; eassumption.
Qed.

Lemma cursor_advance_witness :
  exists a b,
    trace scenario 20 60 !! 0%nat = Some a /\
    trace scenario 20 60 !! 1%nat = Some b /\
    (it_i a < it_i b)%nat /\ (it_j a <= it_i b)%nat.
Proof.
  eexists _, _. split; [reflexivity|]. split; [reflexivity|].
  destruct (cursor_advance scenario 20 60 0 1 _ _ Nat.lt_0_1 eq_refl eq_refl)
    as (H1 & H2 & _).
  split; [exact H1 | exact H2].
Defined.

(** C8 as stated fails on the scenario of the specification: the window
    closed over segments 0..1 is followed by an iteration that starts at
    segment 1, a segment of that window. *)
Lemma closing_segment_starts_next_window :
  exists a b,
    trace scenario 20 60 !! 0%nat = Some a /\
    trace scenario 20 60 !! 1%nat = Some b /\
    is_Some (it_emitted a) /\
    (it_i a <= it_i b <= it_j a)%nat.
Proof.
  eexists _, _. split; [reflexivity|]. split; [reflexivity|].
  split; [eexists; reflexivity|]. simpl. lia.
Qed.

Lemma trace_index_unique
    (segments : list segment) (min_len max_len : Q) (it it' : iteration) :
  it ∈ trace segments min_len max_len ->
  it' ∈ trace segments min_len max_len ->
  it_i it = it_i it' -> it = it'.
Proof.
  intros Hit Hit' Heq.
  destruct (trace_spec segments min_len max_len) as (_ & Hfrom & _ & _).
  pose proof (trace_from_order _ _ _ _ _ Hfrom) as Hord.
  apply list_elem_of_lookup_1 in Hit as (p & Hp).
  apply list_elem_of_lookup_1 in Hit' as (q & Hq).
  destruct (Nat.lt_total p q) as [Hlt|[->|Hgt]].
  - destruct (FOP_lookup _ _ _ _ _ _ Hord Hlt Hp Hq). lia.
  - congruence.
  - destruct (FOP_lookup _ _ _ _ _ _ Hord Hgt Hq Hp). lia.
Qed.

(** C2, amended.  The candidate list is what the iterations of the scan
    appended, at most one per outer index.  For the iteration at outer index
    [i], a candidate is appended exactly when some index [j >= i] that the
    inner cursor reaches (every index from [i] up to [j] keeps the span below
    [max_len], and none before [j] closes the window) has its span in
    [min_len, max_len) and satisfies the break condition; the window is then
    closed at that [j], the only such index.  Otherwise the inner loop ends
    where the cursor meets [n] or a span of at least [max_len], and nothing
    is appended. *)
Theorem window_scan_emission
    (segments : list segment) (min_len max_len : Q) :
  candidates segments min_len max_len = omap it_emitted (trace segments min_len max_len) /\
  forall it, it ∈ trace segments min_len max_len ->
    (forall it', it' ∈ trace segments min_len max_len -> it_i it' = it_i it -> it' = it) /\
    exists si, segments !! it_i it = Some si /\
      (is_Some (it_emitted it) <->
       exists j, (it_i it <= j)%nat /\
         scanned segments min_len max_len (seg_start si) (it_i it) j /\
         closes segments min_len max_len (seg_start si) j) /\
      scanned segments min_len max_len (seg_start si) (it_i it) (it_j it) /\
      match it_emitted it with
      | Some c =>
          closes segments min_len max_len (seg_start si) (it_j it) /\
          (forall j, (it_i it <= j)%nat ->
             scanned segments min_len max_len (seg_start si) (it_i it) j ->
             closes segments min_len max_len (seg_start si) j -> j = it_j it) /\
          exists sj, segments !! it_j it = Some sj /\
            c = make_candidate min_len max_len (seg_start si) sj
                  (window_texts segments (it_i it) (it_j it))
      | None =>
          it_j it = length segments \/
          exists sj, segments !! it_j it = Some sj /\
            max_len <= seg_end sj - seg_start si
      end.
Proof.
  destruct (trace_spec segments min_len max_len) as (_ & Hfrom & _ & Hc).
  split; [exact Hc|]. intros it Hit.
  split; [intros it' Hit' Heq; by eapply trace_index_unique|].
  apply trace_from_results in Hfrom. rewrite Forall_forall in Hfrom.
  destruct (Hfrom it Hit) as (si & Hsi & Hres).
  exists si. split; [exact Hsi|].
  split; [eapply inner_result_emits; eassumption|].
  destruct Hres as (Hb & Hs & Hpost). split; [exact Hs|].
  destruct (it_emitted it) as [c|].
  - destruct Hpost as (Hcl & Hcand). split; [exact Hcl|]. split; [|exact Hcand].
    intros j Hj Hsj Hcj. eapply closing_index_unique; eauto. lia.
  - destruct (segments !! it_j it) as [sj|] eqn:Hsj.
    + right. exists sj. split; [reflexivity|].
      destruct (Qlt_le_dec (seg_end sj - seg_start si) max_len) as [Hlt|Hge];
        [|exact Hge].
      exfalso. apply Hpost. exists sj. auto.
    + left. apply lookup_ge_None in Hsj. lia.
Qed.

(** C2 as stated fails when a span shrinks along the list: from outer index
    0 nothing is appended, because segment 0 alone spans 100 s, although
    index 1 has a span of 25 s, in [20, 60), and ends on a full stop. *)
Lemma later_index_closes_but_nothing_emitted :
  exists it si,
    it ∈ trace overlapping_captions 20 60 /\
    overlapping_captions !! it_i it = Some si /\
    it_emitted it = None /\
    exists j, (it_i it <= j)%nat /\ closes overlapping_captions 20 60 (seg_start si) j.
Proof.
  exists (Iteration 0 None 0), (Segment 0 100 100 "intro").
  split; [vm_compute; left|]. split; [reflexivity|]. split; [reflexivity|].
  exists 1%nat. split; [simpl; lia|].
  exists (Segment 5 20 25 "fine."). split; [reflexivity|].
  split; [apply Qle_bool_iff; reflexivity|].
  split; [apply Qlt_bool_iff; reflexivity | reflexivity].
Qed.

(** A first iteration that closes its window, on the scenario. *)
Lemma window_scan_emission_witness :
  exists it c,
    trace scenario 20 60 !! 0%nat = Some it /\
    it_emitted it = Some c /\
    closes scenario 20 60 0 (it_j it) /\ it_j it = 1%nat.
Proof.
  eexists _, _. split; [reflexivity|]. split; [reflexivity|].
  destruct (proj2 (window_scan_emission scenario 20 60)
              (Iteration 0 (Some (make_candidate 20 60 0
                 (Segment 10 15 25 "this is a secret trick.")
                 (window_texts scenario 0 1))) 1))
    as (_ & si & Hsi & _ & _ & Hpost).
  - vm_compute. left.
  - inversion Hsi; subst si. simpl in Hpost. destruct Hpost as (Hcl & _).
    split; [exact Hcl | reflexivity].
Defined.

(** * Properties of the candidates *)

(** C3, amended.  On the scenario of the specification with [min_len = 20]
    and [max_len = 60] the scan appends exactly one candidate, from outer
    index 0 closed at index 1: start 0, end 25, duration 25, text
    "hello world this is a secret trick.".  Three keywords occur in the
    text ("secret", "this is", "trick"), so [kw_score] is 6; the length
    penalty is 1.5 and the score 4.5. *)
Theorem scenario_candidate :
  exists c,
    candidates scenario 20 60 = [c] /\
    trace scenario 20 60 = [Iteration 0 (Some c) 1; Iteration 1 None 2] /\
    start c == 0 /\ end_ c == 25 /\ duration c == 25 /\
    text c = "hello world this is a secret trick."%string /\
    filter (fun k => PyStr.contains k
                       (PyStr.lower "hello world this is a secret trick.") = true)
           keywords = ["secret"; "this is"; "trick"]%string /\
    kw_score "hello world this is a secret trick." = 6%Z /\
    length_penalty 20 60 25 == 1.5 /\
    score c == 4.5.
Proof.
  eexists. split; [reflexivity|]. split; [reflexivity|].
  repeat split; reflexivity.
Qed.

(** C3 as stated fails: the keyword score of the scenario is not 4 and the
    score of its candidate is not 2.5. *)
Lemma scenario_score_is_not_2_5 :
  ~ exists c,
      candidates scenario 20 60 = [c] /\
      kw_score "hello world this is a secret trick." = 4%Z /\
      score c == 2.5.
Proof.
  intros (c & Hc & Hkw & Hs). vm_compute in Hkw. discriminate.
Qed.

(** C5, amended.  For every candidate of the scan, and so for every returned
    clip, the duration field is the rounding to two decimals of a span [d]
    with [min_len <= d < max_len]; hence
    [round2 min_len <= duration <= round2 max_len], and
    [min_len <= duration] (resp. [duration <= max_len]) when [min_len] (resp.
    [max_len]) is a whole number of hundredths, as the defaults 20 and 60
    are. *)
Theorem candidate_duration_bounds
    (segments : list segment) (min_len max_len : Q) (top_k : Z) (c : clip) :
  c ∈ candidates segments min_len max_len \/
  c ∈ suggest_clips_from_segments segments min_len max_len top_k ->
  (exists d, min_len <= d /\ d < max_len /\ duration c = round2 d) /\
  round2 min_len <= duration c /\ duration c <= round2 max_len /\
  ((exists z, min_len == z # 100) -> min_len <= duration c) /\
  ((exists z, max_len == z # 100) -> duration c <= max_len).
Proof.
  intros Hc.
  assert (Hin : c ∈ candidates segments min_len max_len).
  { destruct Hc as [Hc|Hc]; [exact Hc | eapply suggest_elem; exact Hc]. }
  destruct (candidate_window _ _ _ _ Hin)
    as (i & j & si & sj & Hsi & Hsj & Hij & _ & Hcl & ->).
  destruct Hcl as (sk & Hsk & Hmin & Hmax & _).
  rewrite Hsj in Hsk. inversion Hsk; subst sk. simpl.
  assert (Hlo : round2 min_len <= round2 (seg_end sj - seg_start si))
    by (apply round2_mono; exact Hmin).
  assert (Hhi : round2 (seg_end sj - seg_start si) <= round2 max_len)
    by (apply round2_mono, Qlt_le_weak; exact Hmax).
  split; [exists (seg_end sj - seg_start si); auto|].
  split; [exact Hlo|]. split; [exact Hhi|]. split.
  - intros Hz. rewrite <- (round2_of_hundredth _ Hz). exact Hlo.
  - intros Hz. rewrite <- (round2_of_hundredth _ Hz). exact Hhi.
Qed.

Lemma candidate_duration_bounds_witness :
  exists c,
    candidates scenario 20 60 = [c] /\
    20 <= duration c /\ duration c <= 60.
Proof.
  eexists. split; [reflexivity|].
  destruct (candidate_duration_bounds scenario 20 60 3
              (make_candidate 20 60 0 (Segment 10 15 25 "this is a secret trick.")
                 (window_texts scenario 0 1)))
    as (_ & _ & _ & Hlo & Hhi).
  - left. vm_compute. left.
  - split; [apply Hlo | apply Hhi]; [exists 2000%Z | exists 6000%Z]; reflexivity.
Defined.

(** C5 as stated fails when [min_len] is not a whole number of hundredths:
    a line of 20.004 s with [min_len = 20.004] gives a candidate whose
    duration field is 20.0. *)
Lemma duration_below_min_len :
  exists c,
    candidates short_line 20.004 60 = [c] /\
    ~ 20.004 <= duration c.
Proof.
  eexists. split; [reflexivity|]. simpl. intros H. vm_compute in H. apply H. reflexivity.
Qed.





(** * Properties of the parser *)

Section ParserFacts.

Variable fromstring : string -> option element.
Variable float : string -> option Q.

(** [float("0")] is 0. *)
Hypothesis float_zero : float "0" = Some 0.

Lemma node_segment_Some (node : element) (seg : segment) :
  node_segment float node = Some seg -> segment_of float node seg.
Proof.
  unfold node_segment, segment_of, attr_number. intros H.
  destruct (float (default "0"%string (el_attrib node !! "start"%string)))
    as [st|] eqn:Hst; [|discriminate].
  destruct (float (default "0"%string (el_attrib node !! "dur"%string)))
    as [du|] eqn:Hdu; [|discriminate].
  simpl in H. inversion H; subst seg. simpl.
  split; [|split; [|split; reflexivity]].
  - destruct (el_attrib node !! "start"%string); simpl in Hst; [exact Hst|].
    rewrite float_zero in Hst. congruence.
  - destruct (el_attrib node !! "dur"%string); simpl in Hdu; [exact Hdu|].
    rewrite float_zero in Hdu. congruence.
Qed.

Lemma node_segment_is_Some (node : element) :
  (forall key v, key = "start"%string \/ key = "dur"%string ->
     el_attrib node !! key = Some v -> is_Some (float v)) ->
  is_Some (node_segment float node).
Proof.
  intros H. unfold node_segment.
  assert (Hk : forall key, key = "start"%string \/ key = "dur"%string ->
            is_Some (float (default "0"%string (el_attrib node !! key)))).
  { intros key Hkey. destruct (el_attrib node !! key) as [v|] eqn:E; simpl.
    - eapply H; eassumption.
    - rewrite float_zero. eauto. }
  destruct (Hk "start"%string) as [st ->]; [auto|].
  destruct (Hk "dur"%string) as [du ->]; [auto|].
  simpl. eauto.
Qed.

Lemma node_segment_None (node : element) (key v : string) :
  key = "start"%string \/ key = "dur"%string ->
  el_attrib node !! key = Some v -> float v = None ->
  node_segment float node = None.
Proof.
  intros [->| ->] Hv Hf; unfold node_segment.
  - rewrite Hv. simpl. rewrite Hf. reflexivity.
  - destruct (float (default "0"%string (el_attrib node !! "start"%string)));
      simpl; [|reflexivity].
    rewrite Hv. simpl. rewrite Hf. reflexivity.
Qed.

(** C6, amended.  A text that is not well-formed gives the empty list.  For
    a well-formed document with root [root]: when every start and dur
    attribute present on an element named text reads as a number, the result
    has one segment for each such element, in document order, whose start
    and duration are the attribute read as a number, or 0 when the attribute
    is absent, whose end is start + duration, and whose text is the
    element's text, empty when absent, with each line break replaced by a
    space; when some such attribute does not read as a number, the result
    is the empty list.  The function returns a list in every case. *)
Theorem parse_timedtext_segments (xml_text : string) :
  (fromstring xml_text = None ->
     parse_timedtext fromstring float xml_text = []) /\
  (forall root, fromstring xml_text = Some root ->
     ((forall node key v,
          node ∈ iter "text" root ->
          key = "start"%string \/ key = "dur"%string ->
          el_attrib node !! key = Some v -> is_Some (float v)) ->
      Forall2 (segment_of float) (iter "text" root)
              (parse_timedtext fromstring float xml_text)) /\
     ((exists node key v,
          node ∈ iter "text" root /\
          (key = "start"%string \/ key = "dur"%string) /\
          el_attrib node !! key = Some v /\ float v = None) ->
      parse_timedtext fromstring float xml_text = [])).
Proof.
  unfold parse_timedtext, parse_body. split.
  - intros ->. reflexivity.
  - intros root ->. simpl. split.
    + intros Hall.
      destruct (mapM_is_Some_2 (node_segment float) (iter "text" root)) as [k Hk].
      { rewrite Forall_forall. intros node Hnode. simpl.
        apply node_segment_is_Some. intros key v Hkey Hv. eapply Hall; eassumption. }
      rewrite Hk. simpl. apply mapM_Some_1 in Hk.
      eapply Forall2_impl; [exact Hk|]. intros node seg. apply node_segment_Some.
    + intros (node & key & v & Hnode & Hkey & Hv & Hf).
      rewrite (mapM_None_2 (node_segment float) (iter "text" root)); [reflexivity|].
      apply Exists_exists. exists node. split; [exact Hnode|].
      eapply node_segment_None; eassumption.
Qed.

End ParserFacts.

(** The first sample document: two segments, the first with start 0 by
    default and its line break turned into a space. *)
Lemma parse_timedtext_segments_witness :
  parse_timedtext sample_fromstring decimal_float captions_ok =
    [ Segment 0 1.5 (0 + 1.5) "a b"; Segment 2 3 (2 + 3) "c" ] /\
  Forall2 (segment_of decimal_float) (iter "text" tree_ok)
    (parse_timedtext sample_fromstring decimal_float captions_ok) /\
  parse_timedtext sample_fromstring decimal_float
    "<transcript><text>"%string = [].
Proof.
  pose proof (parse_timedtext_segments sample_fromstring decimal_float eq_refl captions_ok)
    as [_ Hok].
  pose proof (parse_timedtext_segments sample_fromstring decimal_float eq_refl
                "<transcript><text>"%string) as [Hbad _].
  split; [reflexivity|]. split.
  - apply (Hok tree_ok eq_refl).
    intros node key v Hnode Hkey Hv.
    apply list_elem_of_In in Hnode.
    destruct Hnode as [<-|[<-|[]]]; destruct Hkey as [-> | ->];
      vm_compute in Hv; inversion Hv; subst v; vm_compute; eauto.
  - apply Hbad. reflexivity.
Defined.

(** C6 as stated fails: the second sample document is well-formed and has one
    element named text, but its start attribute is not a number, and the
    result is the empty list instead of a segment with start 0. *)
Lemma unparseable_attribute_empties_result :
  sample_fromstring captions_bad = Some tree_bad /\
  length (iter "text" tree_bad) = 1%nat /\
  decimal_float "abc" = None /\
  parse_timedtext sample_fromstring decimal_float captions_bad = [].
Proof. repeat split; reflexivity. Qed.

(** * Video ids *)

Section UrlStringFacts.

Import PyUrl.

Lemma append_nil (b : string) : (EmptyString ++ b)%string = b.
Proof. reflexivity. Qed.

Lemma append_cons (c : ascii) (a b : string) :
  (String c a ++ b)%string = String c (a ++ b)%string.
Proof. reflexivity. Qed.

Lemma endswith_app (suf p : string) : endswith suf (p ++ suf)%string = true.
Proof.
  induction p as [|c p IH]; rewrite ?append_nil, ?append_cons; simpl.
  - destruct suf; simpl; rewrite ?String.eqb_refl, ?Ascii.eqb_refl; reflexivity.
  - rewrite IH. apply orb_true_r.
Qed.

Lemma endswith_inv (suf s : string) :
  endswith suf s = true -> exists p, s = (p ++ suf)%string.
Proof.
  induction s as [|c s IH]; simpl; intros H.
  - rewrite orb_false_r in H. apply String.eqb_eq in H. subst suf. by exists EmptyString.
  - apply orb_true_iff in H as [H|H].
    + apply String.eqb_eq in H. subst suf. by exists EmptyString.
    + destruct (IH H) as [p ->]. by exists (String c p).
Qed.

Lemma split_on_nonempty (sep : ascii) (s : string) : split_on sep s <> [].
Proof.
  destruct s as [|c s]; simpl; [discriminate|].
  destruct (Ascii.eqb c sep); [discriminate|].
  destruct (split_on sep s); discriminate.
Qed.

Lemma split_on_no_sep (sep : ascii) (s : string) :
  has_char sep s = false -> split_on sep s = [s].
Proof.
  induction s as [|c s IH]; simpl; intros H; [reflexivity|].
  apply orb_false_iff in H as [Hc Hs]. rewrite Hc, (IH Hs). reflexivity.
Qed.

Lemma split_on_app (sep : ascii) (p r : string) :
  split_on sep (p ++ String sep r)%string = split_on sep p ++ split_on sep r.
Proof.
  induction p as [|c p IH]; rewrite ?append_nil, ?append_cons; simpl.
  - rewrite Ascii.eqb_refl. reflexivity.
  - destruct (Ascii.eqb c sep); [by rewrite IH|].
    rewrite IH. pose proof (split_on_nonempty sep p) as Hne.
    destruct (split_on sep p) as [|h t]; [contradiction|]. reflexivity.
Qed.

(** A string with a separator splits at its last one. *)
Lemma last_sep_decompose (sep : ascii) (s : string) :
  has_char sep s = true ->
  exists pre tail, s = (pre ++ String sep tail)%string /\ has_char sep tail = false.
Proof.
  induction s as [|c s IH]; simpl; intros H; [discriminate|].
  destruct (has_char sep s) eqn:Hs.
  - destruct (IH eq_refl) as (pre & tail & -> & Ht).
    exists (String c pre), tail. split; [reflexivity | assumption].
  - rewrite orb_false_r in H. apply Ascii.eqb_eq in H. subst c.
    exists EmptyString, s. split; [reflexivity | assumption].
Qed.

Lemma last_split_on (sep : ascii) (s : string) :
  exists tail,
    last (split_on sep s) = Some tail /\ has_char sep tail = false /\
    (s = tail \/ exists pre, s = (pre ++ String sep tail)%string).
Proof.
  destruct (has_char sep s) eqn:Hs.
  - destruct (last_sep_decompose sep s Hs) as (pre & tail & -> & Ht).
    exists tail. rewrite split_on_app, (split_on_no_sep sep tail Ht), last_snoc.
    eauto.
  - exists s. rewrite (split_on_no_sep sep s Hs). auto.
Qed.

Lemma startswith_char (ch c : ascii) (s : string) :
  startswith (String ch EmptyString) (String c s) = Ascii.eqb c ch.
Proof.
  unfold startswith. simpl. destruct (Ascii.ascii_dec ch c) as [->|Hne]; simpl.
  - rewrite Ascii.eqb_refl. by destruct s.
  - symmetry. apply Ascii.eqb_neq. congruence.
Qed.

Lemma lstrip_char_spec (ch : ascii) (s : string) :
  exists a, s = (a ++ lstrip_char ch s)%string /\ all_char ch a = true /\
    startswith (String ch EmptyString) (lstrip_char ch s) = false.
Proof.
  induction s as [|c s IH]; simpl.
  - exists EmptyString. repeat split.
  - destruct (Ascii.eqb c ch) eqn:E.
    + destruct IH as (a & Ha & Hall & Hst). exists (String c a).
      rewrite append_cons. simpl. rewrite E, Hall.
      split; [f_equal; exact Ha | auto].
    + exists EmptyString. rewrite append_nil, startswith_char. auto.
Qed.

Lemma rstrip_char_spec (ch : ascii) (s : string) :
  exists b, s = (rstrip_char ch s ++ b)%string /\ all_char ch b = true /\
    endswith (String ch EmptyString) (rstrip_char ch s) = false.
Proof.
  induction s as [|c s IH]; simpl.
  - exists EmptyString. repeat split.
  - destruct IH as (b & Hb & Hall & Hend).
    destruct (rstrip_char ch s) as [|d r] eqn:Hr.
    + rewrite append_nil in Hb. subst s. destruct (Ascii.eqb c ch) eqn:E.
      * exists (String c b). rewrite append_nil. simpl. rewrite E, Hall. auto.
      * exists b. rewrite append_cons, append_nil. simpl.
        split; [reflexivity|]. split; [assumption|].
        rewrite Ascii.eqb_sym, E. reflexivity.
    + exists b. rewrite append_cons. split; [f_equal; exact Hb|]. split; [assumption|].
      simpl in Hend |- *. rewrite Hend.
      destruct (Ascii.eqb ch c); reflexivity.
Qed.

Lemma rstrip_char_head (ch : ascii) (s : string) :
  startswith (String ch EmptyString) s = false ->
  startswith (String ch EmptyString) (rstrip_char ch s) = false.
Proof.
  destruct s as [|c s]; [auto|]. rewrite startswith_char. intros E. simpl.
  destruct (rstrip_char ch s); [rewrite E|]; by rewrite ?startswith_char.
Qed.


Lemma prefix_cons (a c : ascii) (p s : string) :
  String.prefix (String a p) (String c s) =
    if Ascii.ascii_dec a c then String.prefix p s else false.
Proof. reflexivity. Qed.

Lemma shorts_has_slash (s : string) :
  startswith "/shorts/" s = true -> has_char "/" s = true.
Proof.
  destruct s as [|c s]; [discriminate|]. unfold startswith.
  rewrite prefix_cons. intros H.
  destruct (Ascii.ascii_dec "/" c) as [<-|]; [reflexivity | discriminate H].
Qed.

End UrlStringFacts.

Section VideoIdFacts.

Import PyUrl.

Variable urlparse : string -> option parse_result.
Variable parse_qs : string -> gmap string (list string).

Abbreviation extract := (extract_video_id urlparse parse_qs).

(** X1.  A shorts address: when the host name ends in youtube.com and the
    path is /shorts/ followed by an id without a slash, that id is returned. *)
Theorem extract_video_id_shorts (url : string) (parsed : parse_result) (id : string) :
  urlparse url = Some parsed ->
  endswith "youtube.com" (netloc parsed) = true ->
  path parsed = ("/shorts/" ++ id)%string ->
  has_char "/" id = false ->
  extract url = Some id.
Proof.
  intros Hp Hn Hpath Hid. unfold extract_video_id. rewrite Hp, Hn, Hpath.
  assert (Hw : String.eqb ("/shorts/" ++ id) "/watch" = false) by reflexivity.
  assert (Hs : startswith "/shorts/" ("/shorts/" ++ id) = true)
    by (destruct id; reflexivity).
  rewrite Hw, Hs.
  change ("/shorts/" ++ id)%string with ("/shorts" ++ String "/" id)%string.
  rewrite split_on_app, (split_on_no_sep _ _ Hid), last_snoc. reflexivity.
Qed.

(** X2.  On the shorts branch the result is always the part of the path
    behind its last slash, whatever stands between /shorts/ and that slash;
    it contains no slash and is empty when the path ends in one. *)
Theorem extract_video_id_shorts_tail (url : string) (parsed : parse_result) :
  urlparse url = Some parsed ->
  endswith "youtube.com" (netloc parsed) = true ->
  path parsed <> "/watch"%string ->
  startswith "/shorts/" (path parsed) = true ->
  exists pre id,
    extract url = Some id /\
    has_char "/" id = false /\
    path parsed = (pre ++ String "/" id)%string.
Proof.
  intros Hp Hn Hw Hs. unfold extract_video_id. rewrite Hp, Hn, Hs.
  apply String.eqb_neq in Hw. rewrite Hw.
  destruct (last_split_on "/" (path parsed)) as (id & Hlast & Hid & [Heq|[pre Hpre]]).
  - apply shorts_has_slash in Hs. congruence.
  - exists pre, id. auto.
Qed.

(** X3.  The host test is a suffix test: for every host name that ends in
    youtube.com (with any or no text in front) and the path /watch, the result
    is the first value of the query parameter v, and [None] without one. *)
Theorem extract_video_id_watch (url : string) (parsed : parse_result) (sub : string) :
  urlparse url = Some parsed ->
  netloc parsed = (sub ++ "youtube.com")%string ->
  path parsed = "/watch"%string ->
  extract url = parse_qs (query parsed) !! "v"%string ≫= head.
Proof.
  intros Hp Hn Hpath. unfold extract_video_id.
  rewrite Hp, Hn, endswith_app, Hpath. simpl.
  destruct (parse_qs (query parsed) !! "v"%string) as [[|v vs]|]; reflexivity.
Qed.

(** X4.  An id is returned only for three shapes of address: a host name
    ending in youtube.com with path /watch or a path starting with /shorts/,
    or the host name youtu.be.  Everything else, and every address that
    [urlparse] rejects, gives [None]. *)
Theorem extract_video_id_sound (url id : string) :
  extract url = Some id ->
  exists parsed,
    urlparse url = Some parsed /\
    (((exists sub, netloc parsed = (sub ++ "youtube.com")%string) /\
      (path parsed = "/watch"%string \/ startswith "/shorts/" (path parsed) = true)) \/
     netloc parsed = "youtu.be"%string).
Proof.
  unfold extract_video_id, short_link_id. intros H.
  destruct (urlparse url) as [parsed|]; [|discriminate].
  exists parsed. split; [reflexivity|].
  destruct (endswith "youtube.com" (netloc parsed)) eqn:Hn.
  - apply endswith_inv in Hn.
    destruct (String.eqb_spec (path parsed) "/watch") as [Hw|Hw]; [left; auto|].
    destruct (startswith "/shorts/" (path parsed)) eqn:Hs; [left; auto|].
    destruct (String.eqb_spec (netloc parsed) "youtu.be") as [Hy|Hy]; [right; auto | discriminate].
  - destruct (String.eqb_spec (netloc parsed) "youtu.be") as [Hy|Hy]; [right; auto | discriminate].
Qed.

(** X5.  For the host youtu.be the result is never [None]: it is the path
    without the slashes at its two ends, so it neither starts nor ends with a
    slash, and it is the empty string when the path has nothing else. *)
Theorem extract_video_id_short_link (url : string) (parsed : parse_result) :
  urlparse url = Some parsed ->
  netloc parsed = "youtu.be"%string ->
  exists id a b,
    extract url = Some id /\
    path parsed = (a ++ id ++ b)%string /\
    all_char "/" a = true /\ all_char "/" b = true /\
    startswith "/" id = false /\ endswith "/" id = false.
Proof.
  intros Hp Hn. unfold extract_video_id, short_link_id, strip_char. rewrite Hp, Hn. simpl.
  destruct (lstrip_char_spec "/" (path parsed)) as (a & Ha & Hall & Hst).
  destruct (rstrip_char_spec "/" (lstrip_char "/" (path parsed))) as (b & Hb & Hbll & Hend).
  exists (rstrip_char "/" (lstrip_char "/" (path parsed))), a, b.
  split; [reflexivity|]. split; [by rewrite <- Hb|].
  split; [assumption|]. split; [assumption|].
  split; [by apply rstrip_char_head | assumption].
Qed.

End VideoIdFacts.

Lemma extract_video_id_shorts_witness :
  extract_video_id sample_urlparse sample_parse_qs
    "https://m.youtube.com/shorts/abcdefghijk" = Some "abcdefghijk"%string.
Proof.
  apply (extract_video_id_shorts sample_urlparse sample_parse_qs _
           (ParseResult "m.youtube.com" "/shorts/abcdefghijk" "")); reflexivity.
Defined.

Lemma extract_video_id_shorts_tail_witness :
  exists pre id,
    extract_video_id sample_urlparse sample_parse_qs
      "https://m.youtube.com/shorts/abcdefghijk" = Some id /\
    PyUrl.has_char "/" id = false /\
    "/shorts/abcdefghijk"%string = (pre ++ String "/" id)%string.
Proof.
  apply (extract_video_id_shorts_tail sample_urlparse sample_parse_qs _
           (ParseResult "m.youtube.com" "/shorts/abcdefghijk" ""));
    [reflexivity | reflexivity | discriminate | reflexivity].
Defined.

Lemma extract_video_id_watch_witness :
  extract_video_id sample_urlparse sample_parse_qs
    "https://www.youtube.com/watch?v=dQw4w9WgXcQ" = Some "dQw4w9WgXcQ"%string.
Proof.
  rewrite (extract_video_id_watch sample_urlparse sample_parse_qs _
             (ParseResult "www.youtube.com" "/watch" "v=dQw4w9WgXcQ") "www.");
    reflexivity.
Defined.

Lemma extract_video_id_sound_witness :
  exists parsed,
    sample_urlparse "https://youtu.be/dQw4w9WgXcQ/" = Some parsed /\
    netloc parsed = "youtu.be"%string /\
    extract_video_id sample_urlparse sample_parse_qs
      "https://vimeo.com/watch?v=dQw4w9WgXcQ" = None.
Proof.
  destruct (extract_video_id_sound sample_urlparse sample_parse_qs
              "https://youtu.be/dQw4w9WgXcQ/" "dQw4w9WgXcQ" eq_refl)
    as (parsed & Hp & H).
  exists parsed. split; [exact Hp|]. split; [|reflexivity].
  inversion Hp; subst parsed. reflexivity.
Defined.

Lemma extract_video_id_short_link_witness :
  extract_video_id sample_urlparse sample_parse_qs "https://youtu.be/dQw4w9WgXcQ/"
    = Some "dQw4w9WgXcQ"%string /\
  exists id a b,
    extract_video_id sample_urlparse sample_parse_qs "https://youtu.be/" = Some id /\
    "/"%string = (a ++ id ++ b)%string /\
    PyUrl.all_char "/" a = true /\ PyUrl.all_char "/" b = true /\
    PyUrl.startswith "/" id = false /\ PyUrl.endswith "/" id = false.
Proof.
  split; [reflexivity|].
  apply (extract_video_id_short_link sample_urlparse sample_parse_qs _
           (ParseResult "youtu.be" "/" "")); reflexivity.
Defined.

(** * Fetching the captions *)

Section FetchFacts.

Variable requests_get : nat -> string -> get_result.

Abbreviation fetch_loop := (fetch_loop requests_get).

Abbreviation all_failed_before := (all_failed_before requests_get).

Lemma all_failed_before_cons (n : nat) (url : string) (rest : list string) (k : nat) (r : response) :
  requests_get n url = Responds r -> usable r = false ->
  all_failed_before (S n) rest k -> all_failed_before n (url :: rest) (S k).
Proof.
  intros Hget Hr H k' url' Hlt Hk'. destruct k' as [|k']; simpl in Hk'.
  - inversion Hk'; subst url'. exists r. by rewrite Nat.add_0_r.
  - destruct (H k' url') as (r' & Hr' & Hu); [lia | assumption |].
    exists r'. by rewrite <- Nat.add_succ_comm.
Qed.

Lemma all_failed_before_tail (n : nat) (url : string) (rest : list string) (k : nat) :
  all_failed_before n (url :: rest) (S k) ->
  (exists r, requests_get n url = Responds r /\ usable r = false) /\
  all_failed_before (S n) rest k.
Proof.
  intros H. split.
  - destruct (H 0%nat url) as (r & Hr & Hu); [lia | reflexivity |].
    exists r. by rewrite Nat.add_0_r in Hr.
  - intros k' url' Hlt Hk'.
    destruct (H (S k') url') as (r' & Hr' & Hu); [lia | assumption |].
    exists r'. by rewrite Nat.add_succ_comm.
Qed.

Lemma fetch_loop_some (n : nat) (endpoints : list string) (t : string) :
  fetch_loop n endpoints = Returns (Some t) <->
  exists k url r,
    endpoints !! k = Some url /\ requests_get (n + k) url = Responds r /\
    usable r = true /\ resp_text r = t /\ all_failed_before n endpoints k.
Proof.
  revert n. induction endpoints as [|url rest IH]; intros n; simpl.
  - split; [discriminate|]. intros (k & u & r & Hk & _). destruct k; discriminate.
  - destruct (requests_get n url) as [msg|r] eqn:Hget.
    + split; [discriminate|]. intros (k & u & r & Hk & Hr & Hu & Ht & Hall).
      destruct k as [|k]; simpl in Hk.
      * inversion Hk; subst u. rewrite Nat.add_0_r in Hr. congruence.
      * apply all_failed_before_tail in Hall as [(r' & Hr' & _) _]. congruence.
    + destruct (usable r) eqn:Hu.
      * split.
        -- intros H. inversion H; subst t. exists 0%nat, url, r.
           rewrite Nat.add_0_r. repeat split; try assumption.
           intros k' url' Hlt. lia.
        -- intros (k & u & r0 & Hk & Hr & Hu0 & Ht & Hall).
           destruct k as [|k]; simpl in Hk.
           ++ inversion Hk; subst u. rewrite Nat.add_0_r in Hr. congruence.
           ++ apply all_failed_before_tail in Hall as [(r' & Hr' & Hu') _]. congruence.
      * rewrite IH. split.
        -- intros (k & u & r0 & Hk & Hr & Hu0 & Ht & Hall).
           exists (S k), u, r0. rewrite <- Nat.add_succ_comm.
           repeat split; try assumption. eapply all_failed_before_cons; eassumption.
        -- intros (k & u & r0 & Hk & Hr & Hu0 & Ht & Hall).
           destruct k as [|k]; simpl in Hk.
           ++ inversion Hk; subst u. rewrite Nat.add_0_r in Hr. congruence.
           ++ exists k, u, r0. rewrite Nat.add_succ_comm.
              apply all_failed_before_tail in Hall as [_ Hall].
              repeat split; assumption.
Qed.

Lemma fetch_loop_none (n : nat) (endpoints : list string) :
  fetch_loop n endpoints = Returns None <->
  all_failed_before n endpoints (length endpoints).
Proof.
  revert n. induction endpoints as [|url rest IH]; intros n; simpl.
  - split; [|reflexivity]. intros _ k' url' Hlt. lia.
  - destruct (requests_get n url) as [msg|r] eqn:Hget.
    + split; [discriminate|]. intros Hall.
      apply all_failed_before_tail in Hall as [(r' & Hr' & _) _]. congruence.
    + destruct (usable r) eqn:Hu.
      * split; [discriminate|]. intros Hall.
        apply all_failed_before_tail in Hall as [(r' & Hr' & Hu') _]. congruence.
      * rewrite IH. split.
        -- intros Hall. eapply all_failed_before_cons; eassumption.
        -- intros Hall. by apply all_failed_before_tail in Hall as [_ Hall].
Qed.

Lemma fetch_loop_propagates (n : nat) (endpoints : list string) (msg : string) :
  fetch_loop n endpoints = Propagates msg <->
  exists k url,
    endpoints !! k = Some url /\ requests_get (n + k) url = Raises msg /\
    all_failed_before n endpoints k.
Proof.
  revert n. induction endpoints as [|url rest IH]; intros n; simpl.
  - split; [discriminate|]. intros (k & u & Hk & _). destruct k; discriminate.
  - destruct (requests_get n url) as [msg'|r] eqn:Hget.
    + split.
      * intros H. inversion H; subst msg'. exists 0%nat, url. rewrite Nat.add_0_r.
        repeat split; try assumption. intros k' url' Hlt. lia.
      * intros (k & u & Hk & Hr & Hall). destruct k as [|k]; simpl in Hk.
        -- inversion Hk; subst u. rewrite Nat.add_0_r in Hr. congruence.
        -- apply all_failed_before_tail in Hall as [(r' & Hr' & _) _]. congruence.
    + destruct (usable r) eqn:Hu.
      * split; [discriminate|]. intros (k & u & Hk & Hr & Hall).
        destruct k as [|k]; simpl in Hk.
        -- inversion Hk; subst u. rewrite Nat.add_0_r in Hr. congruence.
        -- apply all_failed_before_tail in Hall as [(r' & Hr' & Hu') _]. congruence.
      * rewrite IH. split.
        -- intros (k & u & Hk & Hr & Hall). exists (S k), u.
           rewrite <- Nat.add_succ_comm. repeat split; try assumption.
           eapply all_failed_before_cons; eassumption.
        -- intros (k & u & Hk & Hr & Hall). destruct k as [|k]; simpl in Hk.
           ++ inversion Hk; subst u. rewrite Nat.add_0_r in Hr. congruence.
           ++ exists k, u. rewrite Nat.add_succ_comm.
              apply all_failed_before_tail in Hall as [_ Hall]. repeat split; assumption.
Qed.

Lemma fetch_loop_no_http (n : nat) (endpoints : list string) (st : Z) (d : string) :
  fetch_loop n endpoints <> HTTPException st d.
Proof.
  revert n. induction endpoints as [|url rest IH]; intros n; simpl; [discriminate|].
  destruct (requests_get n url) as [msg|r]; [discriminate|].
  destruct (usable r); [discriminate | apply IH].
Qed.

Lemma usable_truthy (r : response) :
  usable r = true -> truthy (Some (resp_text r)) = true.
Proof.
  unfold usable, truthy. intros H. apply andb_true_iff in H as [_ H].
  destruct (resp_text r); [discriminate H | reflexivity].
Qed.

Lemma fetch_loop_truthy (n : nat) (endpoints : list string) (t : string) :
  fetch_loop n endpoints = Returns (Some t) -> truthy (Some t) = true.
Proof.
  intros H. apply fetch_loop_some in H as (k & url & r & _ & _ & Hu & <- & _).
  by apply usable_truthy.
Qed.

(** X6.  A text is returned exactly when some address of the list was
    answered with status 200 and a body that is not blank, and every address
    before it was answered with something else; the text is the body of that
    first such answer, whatever the later addresses would give. *)
Theorem fetch_transcript_xml_first_usable (video_id lang t : string) :
  fetch_transcript_xml requests_get video_id lang = Returns (Some t) <->
  exists k url r,
    timedtext_endpoints video_id lang !! k = Some url /\
    requests_get k url = Responds r /\
    status_code r = 200%Z /\ PyStr.strip (resp_text r) <> ""%string /\
    resp_text r = t /\
    all_failed_before 0 (timedtext_endpoints video_id lang) k.
Proof.
  unfold fetch_transcript_xml. rewrite fetch_loop_some. simpl.
  split.
  - intros (k & url & r & Hk & Hr & Hu & Ht & Hall). exists k, url, r.
    unfold usable in Hu. apply andb_true_iff in Hu as [H1 H2].
    apply Z.eqb_eq in H1. apply negb_true_iff, String.eqb_neq in H2. tauto.
  - intros (k & url & r & Hk & Hr & H1 & H2 & Ht & Hall). exists k, url, r.
    split; [exact Hk|]. split; [exact Hr|]. split; [|tauto].
    unfold usable. apply andb_true_iff. split; [by apply Z.eqb_eq|].
    by apply negb_true_iff, String.eqb_neq.
Qed.

(** X7.  [None] is returned exactly when all four addresses were answered
    and each answer had a status other than 200 or a blank body. *)
Theorem fetch_transcript_xml_none (video_id lang : string) :
  fetch_transcript_xml requests_get video_id lang = Returns None <->
  forall k url, timedtext_endpoints video_id lang !! k = Some url ->
    exists r, requests_get k url = Responds r /\
      (status_code r <> 200%Z \/ PyStr.strip (resp_text r) = ""%string).
Proof.
  unfold fetch_transcript_xml. rewrite fetch_loop_none. split.
  - intros Hall k url Hk.
    destruct (Hall k url) as (r & Hr & Hu); [by eapply lookup_lt_Some | assumption |].
    exists r. split; [exact Hr|].
    unfold usable in Hu. apply andb_false_iff in Hu as [H|H].
    + left. by apply Z.eqb_neq.
    + right. by apply negb_false_iff, String.eqb_eq in H.
  - intros H k url _ Hk. destruct (H k url Hk) as (r & Hr & Hu).
    exists r. split; [exact Hr|]. unfold usable. apply andb_false_iff.
    destruct Hu as [Hu|Hu]; [left; by apply Z.eqb_neq|].
    right. rewrite Hu. reflexivity.
Qed.

(** X8.  The function never ends in an [HTTPException]; it ends in an
    exception exactly when a request raised one while every address before
    it had been answered with nothing usable, and the exception is that
    one. *)
Theorem fetch_transcript_xml_raises (video_id lang : string) :
  (forall st d, fetch_transcript_xml requests_get video_id lang <> HTTPException st d) /\
  forall msg,
    fetch_transcript_xml requests_get video_id lang = Propagates msg <->
    exists k url,
      timedtext_endpoints video_id lang !! k = Some url /\
      requests_get k url = Raises msg /\
      all_failed_before 0 (timedtext_endpoints video_id lang) k.
Proof.
  unfold fetch_transcript_xml. split.
  - intros st d. apply fetch_loop_no_http.
  - intros msg. rewrite fetch_loop_propagates. reflexivity.
Qed.

End FetchFacts.

(** * The endpoints *)

(** With the default bounds every candidate lasts between 20 and 60 s. *)
Lemma default_duration_range (segments : list segment) (c : clip) :
  c ∈ candidates segments 20 60 -> 20 <= duration c /\ duration c <= 60.
Proof.
  intros Hin.
  destruct (candidate_window _ _ _ _ Hin)
    as (i & j & si & sj & Hsi & Hsj & Hij & _ & Hcl & ->).
  destruct Hcl as (sk & Hsk & Hmin & Hmax & _).
  rewrite Hsj in Hsk. inversion Hsk; subst sk. simpl.
  split.
  - rewrite <- (round2_of_hundredth 20) by (exists 2000%Z; reflexivity).
    by apply round2_mono.
  - rewrite <- (round2_of_hundredth 60) by (exists 6000%Z; reflexivity).
    by apply round2_mono, Qlt_le_weak.
Qed.

Lemma suggest_pairwise_disjoint (segments : list segment) (min_len max_len : Q) (top_k : Z) :
  ForallOrdPairs disjoint (suggest_clips_from_segments segments min_len max_len top_k).
Proof. rewrite suggest_select. apply select_disjoint; [reflexivity | constructor]. Qed.

Lemma bool_filter_sublist {A : Type} (f : A -> bool) (l : list A) :
  sublist (List.filter f l) l.
Proof.
  induction l as [|x l IH]; simpl; [constructor|].
  destruct (f x); [by apply sublist_skip | by apply sublist_cons].
Qed.

Section EndpointFacts.

Variable requests_get : nat -> string -> get_result.
Variable urlparse : string -> option parse_result.
Variable parse_qs : string -> gmap string (list string).
Variable fromstring : string -> option element.
Variable float : string -> option Q.

Abbreviation resolve := (resolve_video_id urlparse parse_qs).
Abbreviation fetch := (fetch_transcript_xml requests_get).
Abbreviation transcript_ep := (transcript requests_get urlparse parse_qs fromstring float).
Abbreviation suggest_ep := (suggest_clips requests_get urlparse parse_qs fromstring float).
Abbreviation parse := (parse_timedtext fromstring float).

Lemma fetch_cases (vid lang : string) :
  fetch vid lang = Returns None \/
  (exists t, fetch vid lang = Returns (Some t) /\ truthy (Some t) = true) \/
  (exists msg, fetch vid lang = Propagates msg).
Proof.
  destruct (fetch vid lang) as [[t|]|st d|msg] eqn:E; eauto.
  - right. left. exists t. split; [reflexivity|]. eapply fetch_loop_truthy. exact E.
  - exfalso. eapply fetch_loop_no_http. exact E.
Qed.

Lemma truthy_Some (o : option string) :
  truthy o = true -> exists s, o = Some s /\ s <> ""%string.
Proof.
  destruct o as [s|]; [|discriminate]. simpl. intros H.
  exists s. split; [reflexivity|]. by apply negb_true_iff, String.eqb_neq in H.
Qed.

Lemma resolve_falsy (video_id url : option string) :
  truthy (resolve video_id url) = false <->
  truthy video_id = false /\
  (truthy url = false \/
   truthy (extract_video_id urlparse parse_qs (default ""%string url)) = false).
Proof.
  unfold resolve_video_id.
  destruct (truthy url) eqn:Hu, (truthy video_id) eqn:Hv; simpl; rewrite ?Hv;
    intuition congruence.
Qed.

(** X9.  The suggestion endpoint ends in an [HTTPException] exactly when it
    has no non-empty video id: none was given, and the url is empty or gives
    no non-empty id.  The status is 400 and the detail is
    "Provide video_id or url" in both cases. *)
Theorem suggest_clips_bad_request
    (video_id url : option string) (lang : string) (top_k : Z) (st : Z) (d : string) :
  suggest_ep video_id url lang top_k = HTTPException st d <->
  st = 400%Z /\ d = "Provide video_id or url"%string /\
  truthy video_id = false /\
  (truthy url = false \/
   truthy (extract_video_id urlparse parse_qs (default ""%string url)) = false).
Proof.
  rewrite <- resolve_falsy. unfold suggest_clips.
  destruct (truthy (resolve video_id url)) eqn:Hid; simpl.
  - split; [|intros (_ & _ & H); discriminate].
    destruct (fetch_cases (default ""%string (resolve video_id url)) lang)
      as [E|[(t & E & Ht)|(msg & E)]]; rewrite E, ?Ht; simpl; discriminate.
  - split; [intros H; inversion H; auto | intros (-> & -> & _); reflexivity].
Qed.

Lemma resolve_truthy_input (video_id url : option string) :
  truthy (resolve video_id url) = true ->
  negb (truthy video_id) && negb (truthy url) = false.
Proof.
  unfold resolve_video_id.
  destruct (truthy url) eqn:Hu, (truthy video_id) eqn:Hv; simpl; try reflexivity.
  congruence.
Qed.

(** What a returned suggestion response is made of. *)
Lemma suggest_ep_returns
    (video_id url : option string) (lang : string) (top_k : Z) (resp : suggest_response) :
  suggest_ep video_id url lang top_k = Returns resp ->
  exists vid,
    resolve video_id url = Some vid /\ vid <> ""%string /\ sr_video_id resp = vid /\
    ((fetch vid lang = Returns None /\ sr_clips resp = [] /\ sr_available resp = false) \/
     (exists t, fetch vid lang = Returns (Some t) /\ sr_available resp = true /\
        sr_clips resp = map (clip_with_lines (parse t))
                          (suggest_clips_from_segments (parse t) 20 60 top_k))).
Proof.
  unfold suggest_clips.
  destruct (truthy (resolve video_id url)) eqn:Hid; simpl; [|discriminate].
  destruct (truthy_Some _ Hid) as (vid & Hvid & Hne). rewrite Hvid. simpl.
  intros H. exists vid. split; [reflexivity|]. split; [exact Hne|].
  destruct (fetch_cases vid lang) as [E|[(t & E & Ht)|(msg & E)]]; rewrite E in H;
    [| rewrite Ht in H |]; simpl in H; inversion H; subst resp; simpl.
  - split; [reflexivity|]. left. auto.
  - split; [reflexivity|]. right. exists t. auto.
Qed.

Lemma transcript_ep_of_resolved
    (video_id url : option string) (lang : string) (vid : string) :
  resolve video_id url = Some vid -> vid <> ""%string ->
  transcript_ep video_id url lang =
    match fetch vid lang with
    | Returns None =>
        Returns {| tr_video_id := vid; tr_segments := []; tr_available := false |}
    | Returns (Some t) =>
        Returns {| tr_video_id := vid; tr_segments := parse t; tr_available := true |}
    | HTTPException st d => HTTPException st d
    | Propagates msg => Propagates msg
    end.
Proof.
  intros Hvid Hne. unfold transcript.
  assert (Hid : truthy (resolve video_id url) = true).
  { rewrite Hvid. simpl. by apply negb_true_iff, String.eqb_neq. }
  rewrite (resolve_truthy_input _ _ Hid). simpl. rewrite Hid, Hvid. simpl.
  destruct (fetch_cases vid lang) as [E|[(t & E & Ht)|(msg & E)]]; rewrite E, ?Ht;
    reflexivity.
Qed.

(** X10.  The transcript endpoint ends in an [HTTPException] in two cases,
    both with status 400: with detail "Provide video_id or url" when neither a
    non-empty video id nor a non-empty url was given, and with detail
    "Unable to extract video id" when only a url was given and it yields no
    non-empty id.  In no other case does it end so. *)
Theorem transcript_bad_request
    (video_id url : option string) (lang : string) (st : Z) (d : string) :
  transcript_ep video_id url lang = HTTPException st d <->
  st = 400%Z /\
  ((d = "Provide video_id or url"%string /\
    truthy video_id = false /\ truthy url = false) \/
   (d = "Unable to extract video id"%string /\
    truthy video_id = false /\ truthy url = true /\
    truthy (extract_video_id urlparse parse_qs (default ""%string url)) = false)).
Proof.
  unfold transcript, resolve_video_id.
  destruct (truthy video_id) eqn:Hv, (truthy url) eqn:Hu; simpl.
  - rewrite Hv. simpl.
    split; [|intros (_ & [(_ & H & _)|(_ & H & _)]); discriminate].
    destruct (fetch_cases (default ""%string video_id) lang)
      as [E|[(t & E & Ht)|(msg & E)]]; rewrite E, ?Ht; simpl; discriminate.
  - rewrite Hv. simpl.
    split; [|intros (_ & [(_ & H & _)|(_ & H & _)]); discriminate].
    destruct (fetch_cases (default ""%string video_id) lang)
      as [E|[(t & E & Ht)|(msg & E)]]; rewrite E, ?Ht; simpl; discriminate.
  - destruct (truthy (extract_video_id urlparse parse_qs (default ""%string url))) eqn:He;
      simpl.
    + split; [|intros (_ & [(_ & _ & H)|(_ & _ & _ & H)]); discriminate].
      destruct (fetch_cases
                  (default ""%string
                     (extract_video_id urlparse parse_qs (default ""%string url))) lang)
        as [E|[(t & E & Ht)|(msg & E)]]; rewrite E, ?Ht; simpl; discriminate.
    + split; [intros H; inversion H; subst; split; [reflexivity|]; right; auto|].
      intros (-> & [(_ & _ & H)|(-> & _)]); [discriminate | reflexivity].
  - split; [intros H; inversion H; subst; split; [reflexivity|]; left; auto|].
    intros (-> & [(-> & _)|(_ & _ & H & _)]); [reflexivity | discriminate].
Qed.

(** X11.  A non-empty video id takes precedence: the url is then not looked
    at by either endpoint. *)
Theorem video_id_takes_precedence
    (video_id url : option string) (lang : string) (top_k : Z) :
  truthy video_id = true ->
  suggest_ep video_id url lang top_k = suggest_ep video_id None lang top_k /\
  transcript_ep video_id url lang = transcript_ep video_id None lang.
Proof.
  intros Hv. unfold suggest_clips, transcript, resolve_video_id.
  rewrite Hv. simpl. rewrite !andb_false_r. simpl. split; reflexivity.
Qed.

(** X12.  Every response of the suggestion endpoint has at most
    [max top_k 0] clips, each with a duration between 20 and 60 s, and no two
    of them overlap. *)
Theorem suggest_clips_response
    (video_id url : option string) (lang : string) (top_k : Z) (resp : suggest_response) :
  suggest_ep video_id url lang top_k = Returns resp ->
  (Z.of_nat (length (sr_clips resp)) <= Z.max top_k 0)%Z /\
  (forall a, a ∈ sr_clips resp -> 20 <= cr_duration a /\ cr_duration a <= 60) /\
  (forall p q a b, p <> q ->
     sr_clips resp !! p = Some a -> sr_clips resp !! q = Some b ->
     cr_end a <= cr_start b \/ cr_start a >= cr_end b).
Proof.
  intros H. apply suggest_ep_returns in H as (vid & _ & _ & _ & [(_ & Hc & _)|(t & _ & _ & Hc)]);
    rewrite Hc.
  - split; [simpl; lia|]. split.
    + intros a Ha. inversion Ha.
    + intros p q a b _ Hp. destruct p; discriminate.
  - split; [|split].
    + rewrite length_map, suggest_select. apply select_length. simpl. lia.
    + intros a Ha. apply list_elem_of_fmap in Ha as (c & -> & Hc').
      simpl. apply (default_duration_range (parse t)). eapply suggest_elem. exact Hc'.
    + intros p q a b Hpq Hp Hq.
      rewrite list_lookup_fmap in Hp, Hq.
      destruct (suggest_clips_from_segments (parse t) 20 60 top_k !! p) as [ca|] eqn:Ha;
        [|discriminate].
      destruct (suggest_clips_from_segments (parse t) 20 60 top_k !! q) as [cb|] eqn:Hb;
        [|discriminate].
      simpl in Hp, Hq. inversion Hp; subst a. inversion Hq; subst b. simpl.
      exact (FOP_non_overlapping _ (suggest_pairwise_disjoint _ _ _ _) p q ca cb Hpq Ha Hb).
Qed.

(** X13.  When the suggestion endpoint returns a response, the transcript
    endpoint returns one for the same arguments, with the same video id and
    the same availability; the lines of each clip are, in order, exactly the
    transcript's segments that start at or after the clip's start and end at
    or before its end. *)
Theorem suggest_clips_lines
    (video_id url : option string) (lang : string) (top_k : Z) (resp : suggest_response) :
  suggest_ep video_id url lang top_k = Returns resp ->
  exists tresp,
    transcript_ep video_id url lang = Returns tresp /\
    tr_video_id tresp = sr_video_id resp /\
    tr_available tresp = sr_available resp /\
    forall a, a ∈ sr_clips resp ->
      sublist (cr_lines a) (tr_segments tresp) /\
      forall s, s ∈ cr_lines a <->
        s ∈ tr_segments tresp /\ cr_start a <= seg_start s /\ seg_end s <= cr_end a.
Proof.
  intros H.
  apply suggest_ep_returns in H
    as (vid & Hvid & Hne & Hv & [(E & Hc & Hav)|(t & E & Hav & Hc)]);
    rewrite (transcript_ep_of_resolved _ _ lang vid Hvid Hne), E.
  - eexists. split; [reflexivity|]. simpl. split; [auto|]. split; [auto|].
    rewrite Hc. intros a Ha. inversion Ha.
  - eexists. split; [reflexivity|]. simpl. split; [auto|]. split; [auto|].
    rewrite Hc. intros a Ha. apply list_elem_of_fmap in Ha as (c & -> & _). simpl.
    unfold lines_within. split.
    + apply bool_filter_sublist.
    + intros s. rewrite !list_elem_of_In, filter_In.
      rewrite andb_true_iff, !Qle_bool_iff. tauto.
Qed.

(** X14.  A response of the suggestion endpoint says available exactly when
    one of the addresses gave a usable answer; when it does not, there are no
    clips; and an answer that is not well-formed XML still gives
    available = true, with no clips. *)
Theorem suggest_clips_available
    (video_id url : option string) (lang : string) (top_k : Z) (resp : suggest_response) :
  suggest_ep video_id url lang top_k = Returns resp ->
  (sr_available resp = true <->
   exists t, fetch (sr_video_id resp) lang = Returns (Some t)) /\
  (sr_available resp = false -> sr_clips resp = []) /\
  (forall t, fetch (sr_video_id resp) lang = Returns (Some t) ->
     fromstring t = None -> sr_available resp = true /\ sr_clips resp = []).
Proof.
  intros H.
  apply suggest_ep_returns in H
    as (vid & _ & _ & -> & [(E & Hc & Hav)|(t & E & Hav & Hc)]).
  - rewrite Hav, Hc, E. split; [|split].
    + split; [discriminate | intros (t & Ht); discriminate].
    + reflexivity.
    + intros t Ht. discriminate.
  - rewrite Hav, E. split; [|split].
    + split; eauto.
    + discriminate.
    + intros t' Ht' Hf. inversion Ht'; subst t'. split; [reflexivity|].
      rewrite Hc. unfold parse_timedtext, parse_body. rewrite Hf. reflexivity.
Qed.

End EndpointFacts.

Lemma video_id_takes_precedence_witness :
  suggest_clips talk_requests_get sample_urlparse sample_parse_qs talk_fromstring
    decimal_float (Some "dQw4w9WgXcQ"%string) (Some "https://youtu.be/"%string) "en" 3 =
  suggest_clips talk_requests_get sample_urlparse sample_parse_qs talk_fromstring
    decimal_float (Some "dQw4w9WgXcQ"%string) None "en" 3.
Proof.
  apply (video_id_takes_precedence talk_requests_get sample_urlparse sample_parse_qs
           talk_fromstring decimal_float). reflexivity.
Defined.

Lemma suggest_clips_response_witness :
  exists resp,
    suggest_clips talk_requests_get sample_urlparse sample_parse_qs talk_fromstring
      decimal_float None (Some "https://www.youtube.com/watch?v=dQw4w9WgXcQ"%string) "en" 3
      = Returns resp /\
    length (sr_clips resp) = 2%nat /\
    forall a, a ∈ sr_clips resp -> 20 <= cr_duration a /\ cr_duration a <= 60.
Proof.
  eexists. split; [vm_compute; reflexivity|]. split; [reflexivity|].
  eapply (suggest_clips_response talk_requests_get sample_urlparse sample_parse_qs
            talk_fromstring decimal_float None
            (Some "https://www.youtube.com/watch?v=dQw4w9WgXcQ"%string) "en" 3).
  vm_compute. reflexivity.
Defined.

Lemma suggest_clips_lines_witness :
  exists resp tresp,
    suggest_clips talk_requests_get sample_urlparse sample_parse_qs talk_fromstring
      decimal_float (Some "dQw4w9WgXcQ"%string) None "en" 1 = Returns resp /\
    transcript talk_requests_get sample_urlparse sample_parse_qs talk_fromstring
      decimal_float (Some "dQw4w9WgXcQ"%string) None "en" = Returns tresp /\
    length (tr_segments tresp) = 2%nat /\
    map (fun a => length (cr_lines a)) (sr_clips resp) = [1%nat].
Proof.
  destruct (suggest_clips_lines talk_requests_get sample_urlparse sample_parse_qs
              talk_fromstring decimal_float (Some "dQw4w9WgXcQ"%string) None "en" 1 _ eq_refl)
    as (tresp & Ht & _).
  eexists _, tresp. split; [reflexivity|]. split; [exact Ht|].
  vm_compute in Ht. inversion Ht; subst tresp. split; reflexivity.
Defined.

Lemma suggest_clips_available_witness :
  exists resp,
    suggest_clips vtt_requests_get sample_urlparse sample_parse_qs talk_fromstring
      decimal_float (Some "dQw4w9WgXcQ"%string) None "en" 3 = Returns resp /\
    sr_available resp = true /\ sr_clips resp = [].
Proof.
  eexists. split; [vm_compute; reflexivity|].
  destruct (suggest_clips_available vtt_requests_get sample_urlparse sample_parse_qs
              talk_fromstring decimal_float (Some "dQw4w9WgXcQ"%string) None "en" 3 _ eq_refl)
    as (_ & _ & H).
  apply (H "WEBVTT"%string); reflexivity.
Defined.

(** * More about the suggester *)

Lemma trace_from_length (segments : list segment) (min_len max_len : Q)
    (i : nat) (tr : list iteration) :
  trace_from segments min_len max_len i tr -> (length tr <= length segments - i)%nat.
Proof.
  induction 1 as [i Hi|i si em j tr Hsi Hres Htr IH]; [apply Nat.le_0_l|].
  apply lookup_lt_Some in Hsi. rewrite length_cons. lia.
Qed.

Lemma length_omap_le {A B : Type} (f : A -> option B) (l : list A) :
  (length (omap f l) <= length l)%nat.
Proof.
  induction l as [|x l IH]; [reflexivity|].
  change (omap f (x :: l)) with (match f x with Some y => y :: omap f l | None => omap f l end).
  destruct (f x); rewrite ?length_cons; lia.
Qed.

(** X15.  The scan makes at most one iteration per segment, so there are at
    most as many candidates, and as many returned clips, as segments. *)
Theorem candidates_at_most_segments
    (segments : list segment) (min_len max_len : Q) (top_k : Z) :
  (length (trace segments min_len max_len) <= length segments)%nat /\
  (length (candidates segments min_len max_len) <= length segments)%nat /\
  (length (suggest_clips_from_segments segments min_len max_len top_k)
     <= length segments)%nat.
Proof.
  destruct (trace_spec segments min_len max_len) as (_ & Hfrom & _ & Hc).
  apply trace_from_length in Hfrom.
  pose proof (length_omap_le it_emitted (trace segments min_len max_len)) as Hle.
  rewrite <- Hc in Hle.
  split; [lia|]. split; [lia|].
  pose proof (sublist_length _ _ (suggest_sublist segments min_len max_len top_k)) as Hs.
  rewrite (Permutation_length (sort_desc_perm _)) in Hs. lia.
Qed.

(** X16.  With [top_k >= 1] and at least one candidate, the result is not
    empty and its first clip is a candidate of maximal score. *)
Theorem best_candidate_first
    (segments : list segment) (min_len max_len : Q) (top_k : Z) :
  (0 < top_k)%Z ->
  candidates segments min_len max_len <> [] ->
  exists best rest,
    suggest_clips_from_segments segments min_len max_len top_k = best :: rest /\
    best ∈ candidates segments min_len max_len /\
    forall c, c ∈ candidates segments min_len max_len -> score c <= score best.
Proof.
  intros Hk Hne. rewrite suggest_select.
  destruct (sort_desc_ranked (candidates segments min_len max_len)) as [Hr Hin].
  pose proof (sort_desc_perm (candidates segments min_len max_len)) as Hperm.
  destruct (sort_desc (candidates segments min_len max_len)) as [|x l] eqn:Hs.
  { apply Permutation_nil_l in Hperm. congruence. }
  simpl. change (Z.of_nat 0) with 0%Z. destruct (Z.leb_spec top_k 0) as [|_]; [lia|].
  destruct (select_sublist top_k l [x] [(start x, end_ x)]) as (l' & -> & _).
  exists x, l'. split; [reflexivity|]. split.
  - rewrite Forall_forall in Hin. apply Hin. left.
  - intros c Hc. rewrite <- Hperm in Hc. inversion Hr as [|? ? Hx _]; subst.
    apply elem_of_cons in Hc as [->|Hc]; [apply Qle_refl|].
    rewrite Forall_forall in Hx. exact (proj1 (Hx c Hc)).
Qed.

Lemma FOP_impl {A : Type} (R R' : A -> A -> Prop) (l : list A) :
  (forall a b, R a b -> R' a b) -> ForallOrdPairs R l -> ForallOrdPairs R' l.
Proof.
  intros HR. induction 1 as [|a l Ha Hl IH]; constructor; [|exact IH].
  eapply Forall_impl; [exact Ha|]. auto.
Qed.

Lemma overlaps_true (c a : clip) :
  overlaps c (interval a) = true <-> ~ (end_ c <= start a \/ start c >= end_ a).
Proof.
  unfold overlaps, interval. simpl. rewrite negb_true_iff, orb_false_iff.
  rewrite !Qle_bool_false. split.
  - intros [H1 H2] [H|H]; [exact (Qlt_not_le _ _ H1 H) | exact (Qlt_not_le _ _ H2 H)].
  - intros H. split; apply Qnot_le_lt; intros Hle; apply H; [left | right]; exact Hle.
Qed.

(** The loop passes over a candidate only for a clip accepted before it. *)
Lemma select_complete (top_k : Z) (cs selected : list clip) :
  ForallOrdPairs (fun a b => score b <= score a) cs ->
  Forall (fun a => Forall (fun c => score c <= score a) cs) selected ->
  (Z.of_nat (length (select top_k cs selected (map interval selected))) < top_k)%Z ->
  forall c, c ∈ cs ->
    c ∈ select top_k cs selected (map interval selected) \/
    exists a, a ∈ select top_k cs selected (map interval selected) /\
      score c <= score a /\ overlaps c (interval a) = true.
Proof.
  revert selected.
  induction cs as [|c0 cs IH]; intros selected Hsorted Hsel Hlen c Hc.
  { inversion Hc. }
  inversion Hsorted as [|? ? Hc0 Hcs]; subst.
  assert (Hweak : Forall (fun a => Forall (fun c => score c <= score a) cs) selected).
  { eapply Forall_impl; [exact Hsel|]. simpl. intros a Ha. by inversion Ha. }
  assert (Hused : map interval selected ++ [(start c0, end_ c0)]
                  = map interval (selected ++ [c0])) by (by rewrite map_app).
  simpl in Hlen |- *.
  destruct (Z.leb_spec top_k (Z.of_nat (length selected))) as [Hge|Hlt]; [lia|].
  destruct (existsb (overlaps c0) (map interval selected)) eqn:Hov.
  - apply elem_of_cons in Hc as [->|Hc]; [|by apply IH].
    right. apply existsb_exists in Hov as (u & Hu & Hou).
    apply in_map_iff in Hu as (a & <- & Ha).
    apply list_elem_of_In in Ha.
    exists a. split; [|split; [|exact Hou]].
    + destruct (select_sublist top_k cs selected (map interval selected)) as (l & -> & _).
      apply elem_of_app. by left.
    + rewrite Forall_forall in Hsel. specialize (Hsel a Ha).
      rewrite Forall_forall in Hsel. apply Hsel. left.
  - rewrite Hused in Hlen |- *.
    assert (Hin0 : c0 ∈ select top_k cs (selected ++ [c0]) (map interval (selected ++ [c0]))).
    { destruct (select_sublist top_k cs (selected ++ [c0]) (map interval (selected ++ [c0])))
        as (l & -> & _).
      apply elem_of_app. left. apply elem_of_app. right. left. }
    apply elem_of_cons in Hc as [->|Hc]; [by left|].
    apply IH; try assumption.
    apply Forall_app. split; [exact Hweak|]. constructor; [|constructor].
    exact Hc0.
Qed.

(** X17.  When fewer than [top_k] clips are returned, every candidate that
    is not returned overlaps a returned clip whose score is at least its
    own: the selection drops a candidate only for a clip ranked before it. *)
Theorem greedy_selection_complete
    (segments : list segment) (min_len max_len : Q) (top_k : Z) (c : clip) :
  (Z.of_nat (length (suggest_clips_from_segments segments min_len max_len top_k))
     < top_k)%Z ->
  c ∈ candidates segments min_len max_len ->
  c ∈ suggest_clips_from_segments segments min_len max_len top_k \/
  exists a,
    a ∈ suggest_clips_from_segments segments min_len max_len top_k /\
    score c <= score a /\
    ~ (end_ c <= start a \/ start c >= end_ a).
Proof.
  rewrite suggest_select. intros Hlen Hc.
  destruct (sort_desc_ranked (candidates segments min_len max_len)) as [Hr _].
  rewrite <- (sort_desc_perm (candidates segments min_len max_len)) in Hc.
  destruct (select_complete top_k (sort_desc (candidates segments min_len max_len)) []
              (FOP_impl _ _ _ (fun a b (H : ranked _ a b) => proj1 H) Hr)
              (Forall_nil_2 _) Hlen c Hc) as [H|(a & Ha & Hs & Ho)].
  - by left.
  - right. exists a. split; [exact Ha|]. split; [exact Hs|]. by apply overlaps_true.
Qed.





Section StripFacts.

Import PyStr.

Lemma rstrip_idempotent (s : string) : rstrip (rstrip s) = rstrip s.
Proof.
  induction s as [|c s IH]; [reflexivity|]. simpl.
  destruct (rstrip s) as [|d r] eqn:Hr.
  - destruct (is_space c) eqn:E; [reflexivity|]. simpl. by rewrite E.
  - change (rstrip (String c (String d r))) with
      (match rstrip (String d r) with
       | EmptyString => if is_space c then EmptyString else String c EmptyString
       | r' => String c r'
       end).
    rewrite IH. reflexivity.
Qed.

(** A string that does not start with white space keeps its first character
    under [rstrip]. *)
Lemma lstrip_rstrip (s : string) : lstrip s = s -> lstrip (rstrip s) = rstrip s.
Proof.
  destruct s as [|c s]; [reflexivity|]. simpl.
  destruct (is_space c) eqn:E.
  - intros H. exfalso.
    assert (Hlen : (String.length (lstrip s) <= String.length s)%nat).
    { clear. induction s as [|d s IH]; simpl; [lia|]. destruct (is_space d); simpl; lia. }
    rewrite H in Hlen. simpl in Hlen. lia.
  - intros _. destruct (rstrip s); simpl; rewrite E; reflexivity.
Qed.

Lemma lstrip_idempotent (s : string) : lstrip (lstrip s) = lstrip s.
Proof.
  induction s as [|c s IH]; [reflexivity|]. simpl.
  destruct (is_space c) eqn:E; [exact IH|]. simpl. by rewrite E.
Qed.

Lemma strip_stripped (s : string) :
  lstrip (strip s) = strip s /\ rstrip (strip s) = strip s.
Proof.
  unfold strip. split.
  - apply lstrip_rstrip, lstrip_idempotent.
  - apply rstrip_idempotent.
Qed.

End StripFacts.

(** X19.  The text of a candidate, and of a returned clip, has no white
    space at either end: stripping it again changes nothing. *)
Theorem candidate_text_stripped
    (segments : list segment) (min_len max_len : Q) (top_k : Z) (c : clip) :
  c ∈ candidates segments min_len max_len \/
  c ∈ suggest_clips_from_segments segments min_len max_len top_k ->
  PyStr.lstrip (text c) = text c /\ PyStr.rstrip (text c) = text c /\
  PyStr.strip (text c) = text c.
Proof.
  intros Hc.
  assert (Hin : c ∈ candidates segments min_len max_len).
  { destruct Hc as [Hc|Hc]; [exact Hc | eapply suggest_elem; exact Hc]. }
  destruct (candidate_window _ _ _ _ Hin) as (i & j & si & sj & _ & _ & _ & _ & _ & ->).
  simpl. destruct (strip_stripped (PyStr.join " " (window_texts segments i j))) as [Hl Hr].
  split; [exact Hl|]. split; [exact Hr|].
  unfold PyStr.strip at 1. rewrite Hl. exact Hr.
Qed.

Lemma replace_newlines_clean (s : string) :
  PyUrl.has_char "010" (PyStr.replace_newlines s) = false.
Proof.
  induction s as [|c s IH]; [reflexivity|]. simpl. rewrite IH, orb_false_r.
  unfold PyStr.code.
  destruct (N.eqb_spec (N_of_ascii c) 10) as [E|E]; [reflexivity|].
  apply Ascii.eqb_neq. intros ->. apply E. reflexivity.
Qed.

Section ParserInvariants.

Variable fromstring : string -> option element.
Variable float : string -> option Q.

Lemma node_segment_shape (node : element) (seg : segment) :
  node_segment float node = Some seg ->
  seg_end seg = seg_start seg + seg_dur seg /\
  seg_text seg = PyStr.replace_newlines (default ""%string (el_text node)).
Proof.
  unfold node_segment. intros H.
  destruct (float (default "0"%string (el_attrib node !! "start"%string))) as [st|];
    [|discriminate].
  destruct (float (default "0"%string (el_attrib node !! "dur"%string))) as [du|];
    [|discriminate].
  simpl in H. inversion H; subst seg. simpl. auto.
Qed.

(** X20.  The parser gives all or nothing: its result is empty, or the text
    is well-formed and there is one segment for each element named text.
    Every segment it returns has end = start + dur and a text without line
    feed. *)
Theorem parse_timedtext_invariants (xml_text : string) :
  (parse_timedtext fromstring float xml_text = [] \/
   exists root, fromstring xml_text = Some root /\
     length (parse_timedtext fromstring float xml_text) = length (iter "text" root)) /\
  forall seg, seg ∈ parse_timedtext fromstring float xml_text ->
    seg_end seg = seg_start seg + seg_dur seg /\
    PyUrl.has_char "010" (seg_text seg) = false.
Proof.
  unfold parse_timedtext, parse_body.
  destruct (fromstring xml_text) as [root|]; simpl.
  2:{ split; [by left|]. intros seg Hseg. inversion Hseg. }
  destruct (mapM (node_segment float) (iter "text" root)) as [k|] eqn:Hk; simpl.
  2:{ split; [by left|]. intros seg Hseg. inversion Hseg. }
  split.
  - right. exists root. split; [reflexivity|]. symmetry. eapply length_mapM. exact Hk.
  - intros seg Hseg. apply mapM_Some_1 in Hk.
    apply list_elem_of_lookup_1 in Hseg as (p & Hp).
    destruct (Forall2_lookup_r _ _ _ _ _ Hk Hp) as (node & _ & Hnode).
    apply node_segment_shape in Hnode as [He Ht]. split; [exact He|].
    rewrite Ht. apply replace_newlines_clean.
Qed.

End ParserInvariants.

(** X21.  When the segment ends do not decrease along the list, an
    iteration of the scan appends a candidate exactly when some index
    [j >= i] has its span in [min_len, max_len) and satisfies the break
    condition, and it closes the window at the least such index. *)
Theorem window_scan_time_ordered
    (segments : list segment) (min_len max_len : Q) (it : iteration) :
  (forall k k' sk sk', (k <= k')%nat ->
     segments !! k = Some sk -> segments !! k' = Some sk' -> seg_end sk <= seg_end sk') ->
  it ∈ trace segments min_len max_len ->
  exists si, segments !! it_i it = Some si /\
    (is_Some (it_emitted it) <->
     exists j, (it_i it <= j)%nat /\ closes segments min_len max_len (seg_start si) j) /\
    (is_Some (it_emitted it) ->
     closes segments min_len max_len (seg_start si) (it_j it) /\
     forall j, (it_i it <= j)%nat ->
       closes segments min_len max_len (seg_start si) j -> (it_j it <= j)%nat).
Proof.
  intros Hmono Hit.
  destruct (trace_spec segments min_len max_len) as (_ & Hfrom & _ & _).
  apply trace_from_results in Hfrom. rewrite Forall_forall in Hfrom.
  destruct (Hfrom it Hit) as (si & Hsi & Hb & Hs & Hpost).
  exists si. split; [exact Hsi|].
  assert (Hleast : forall j, (it_i it <= j)%nat ->
            closes segments min_len max_len (seg_start si) j -> (it_j it <= j)%nat).
  { intros j Hj Hc. destruct (Nat.le_gt_cases (it_j it) j) as [|Hlt]; [assumption|].
    destruct (Hs j) as [_ Hn]; [lia | contradiction]. }
  split; [split|].
  - intros [c Hc]. rewrite Hc in Hpost. destruct Hpost as [Hcl _].
    exists (it_j it). split; [lia | exact Hcl].
  - intros (j & Hj & Hc). destruct (it_emitted it) as [c|]; [eauto|]. exfalso.
    pose proof (Hleast j Hj Hc) as Hle.
    destruct Hc as (sj & Hsj & _ & Hmax & _).
    pose proof (lookup_lt_Some _ _ _ Hsj) as Hlt.
    destruct (lookup_lt_is_Some_2 segments (it_j it)) as [s Hs']; [lia|].
    apply Hpost. exists s. split; [exact Hs'|].
    pose proof (Hmono _ _ _ _ Hle Hs' Hsj) as Hends. lra.
  - intros [c Hc]. rewrite Hc in Hpost. destruct Hpost as [Hcl _]. auto.
Qed.

Lemma window_scan_time_ordered_witness :
  exists it si,
    trace scenario 20 60 !! 0%nat = Some it /\
    scenario !! it_i it = Some si /\
    closes scenario 20 60 (seg_start si) (it_j it).
Proof.
  eexists _, _. split; [reflexivity|]. split; [reflexivity|].
  destruct (window_scan_time_ordered scenario 20 60
              (Iteration 0 (Some (make_candidate 20 60 0
                 (Segment 10 15 25 "this is a secret trick.")
                 (window_texts scenario 0 1))) 1))
    as (si & Hsi & _ & Hcl).
  - intros k k' sk sk' Hle Hk Hk'.
    destruct k as [|[|k]]; destruct k' as [|[|k']]; try discriminate; try lia;
      inversion Hk; inversion Hk'; subst; simpl; lra.
  - vm_compute. left.
  - inversion Hsi; subst si. apply Hcl. eexists. reflexivity.
Defined.


Lemma Forall2_same_lookup (segments segments' : list segment) (j : nat) :
  Forall2 same_timing segments segments' ->
  match segments !! j, segments' !! j with
  | Some s, Some s' => same_timing s s'
  | None, None => True
  | _, _ => False
  end.
Proof.
  intros H. revert j. induction H as [|s s' l l' Hs Hl IH]; intros j.
  - by destruct j.
  - destruct j as [|j]; simpl; [exact Hs | apply IH].
Qed.

Section DurUnused.

Variables segments segments' : list segment.
Variables min_len max_len : Q.

Hypothesis Hsame : Forall2 same_timing segments segments'.

Lemma same_timing_lookup (j : nat) :
  match segments !! j, segments' !! j with
  | Some s, Some s' => same_timing s s'
  | None, None => True
  | _, _ => False
  end.
Proof. by apply Forall2_same_lookup. Qed.

Lemma break_condition_same (j : nat) (s s' : segment) :
  same_timing s s' ->
  break_condition segments j s = break_condition segments' j s'.
Proof.
  intros (_ & He & Ht). unfold break_condition. rewrite Ht, He.
  pose proof (same_timing_lookup (j + 1)) as H.
  destruct (segments !! (j + 1)%nat) as [n|], (segments' !! (j + 1)%nat) as [n'|];
    try contradiction; [|reflexivity].
  destruct H as (Hs & _). by rewrite Hs.
Qed.

Lemma inner_loop_same (fuel : nat) (start_t : Q) (j : nat) (window_text : list string) :
  inner_loop segments min_len max_len fuel start_t j window_text =
  inner_loop segments' min_len max_len fuel start_t j window_text.
Proof.
  revert j window_text. induction fuel as [|fuel IH]; intros j window_text; [reflexivity|].
  simpl. pose proof (same_timing_lookup j) as H.
  destruct (segments !! j) as [s|], (segments' !! j) as [s'|];
    try contradiction; [|reflexivity].
  rewrite (break_condition_same j s s' H).
  destruct H as (Hs & He & Ht). rewrite He, Ht.
  unfold make_candidate. rewrite He. rewrite !IH. reflexivity.
Qed.

Lemma outer_loop_same (gas fuel : nat) (i : nat) (cands : list clip) :
  outer_loop segments min_len max_len gas fuel i cands =
  outer_loop segments' min_len max_len gas fuel i cands.
Proof.
  revert i cands. induction fuel as [|fuel IH]; intros i cands; [reflexivity|].
  simpl. pose proof (same_timing_lookup i) as H.
  destruct (segments !! i) as [s|], (segments' !! i) as [s'|];
    try contradiction; [|reflexivity].
  destruct H as (Hs & _). rewrite Hs, inner_loop_same.
  destruct (inner_loop segments' min_len max_len gas (seg_start s') i []) as [[em j]|];
    simpl; [apply IH | reflexivity].
Qed.

End DurUnused.

(** X22.  The suggester never reads the dur field: two segment lists that
    agree on start, end and text give the same result. *)
Theorem suggest_ignores_dur
    (segments segments' : list segment) (min_len max_len : Q) (top_k : Z) :
  Forall2 same_timing segments segments' ->
  suggest_clips_from_segments segments min_len max_len top_k =
  suggest_clips_from_segments segments' min_len max_len top_k.
Proof.
  intros Hsame. unfold suggest_clips_from_segments, suggest_clips_from_segments_fuel,
    window_scan.
  rewrite (Forall2_length _ _ _ Hsame).
  rewrite (outer_loop_same _ _ min_len max_len Hsame).
  destruct Hsame; reflexivity.
Qed.

Lemma suggest_ignores_dur_witness :
  suggest_clips_from_segments scenario 20 60 3 =
  suggest_clips_from_segments
    [ Segment 0 0 10 "hello world"; Segment 10 99 25 "this is a secret trick." ] 20 60 3.
Proof.
  apply suggest_ignores_dur. repeat constructor.
Defined.

Lemma best_candidate_first_witness :
  exists best rest,
    suggest_clips_from_segments shared_lines 20 60 3 = best :: rest /\
    text best = "tips. y."%string /\
    forall c, c ∈ candidates shared_lines 20 60 -> score c <= score best.
Proof.
  destruct (best_candidate_first shared_lines 20 60 3) as (best & rest & Heq & _ & Hmax);
    [lia | discriminate |].
  exists best, rest. split; [exact Heq|]. split; [|exact Hmax].
  vm_compute in Heq. inversion Heq. reflexivity.
Defined.

Lemma greedy_selection_complete_witness :
  exists c a,
    c ∈ candidates shared_lines 20 60 /\
    suggest_clips_from_segments shared_lines 20 60 3 = [a] /\
    text c = "x tips."%string /\
    score c <= score a /\
    ~ (end_ c <= start a \/ start c >= end_ a).
Proof.
  destruct (greedy_selection_complete shared_lines 20 60 3
              (make_candidate 20 60 0 (Segment 10 15 25 "tips.")
                 (window_texts shared_lines 0 1)))
    as [Hin|(a & Ha & Hs & Ho)].
  - vm_compute. reflexivity.
  - vm_compute. left.
  - exfalso. vm_compute in Hin. inversion Hin as [|? ? ? H]; subst. inversion H.
  - eexists _, a. split; [vm_compute; left|].
    assert (Hres : suggest_clips_from_segments shared_lines 20 60 3 =
                   [make_candidate 20 60 10 (Segment 25 25 50 "y.")
                      (window_texts shared_lines 1 2)]) by reflexivity.
    rewrite Hres in Ha. apply list_elem_of_singleton in Ha. subst a.
    split; [exact Hres|]. split; [reflexivity|]. split; [exact Hs | exact Ho].
Defined.


Lemma candidate_text_stripped_witness :
  exists c,
    candidates [Segment 0 25 25 "  padded line.  "] 20 60 = [c] /\
    text c = "padded line."%string /\
    PyStr.strip (text c) = text c.
Proof.
  eexists. split; [reflexivity|]. split; [reflexivity|].
  eapply (candidate_text_stripped [Segment 0 25 25 "  padded line.  "] 20 60 3).
  left. vm_compute. left.
Defined.

(** * Scraping links *)

Lemma take_id_spec (n : nat) (s id : string) :
  take_id n s = Some id -> String.length id = n /\ all_id_chars id = true.
Proof.
  revert s id. induction n as [|n IH]; intros s id H; simpl in H.
  - inversion H. auto.
  - destruct s as [|c s]; [discriminate|].
    destruct (is_id_char c) eqn:E; [|discriminate].
    destruct (take_id n s) as [id'|] eqn:Hid; [|discriminate].
    simpl in H. inversion H; subst id. destruct (IH _ _ Hid) as [Hl Ha].
    simpl. rewrite E, Ha, Hl. auto.
Qed.

Lemma match_watch_id (s id : string) (len : nat) :
  match_watch s = Some (id, len) -> String.length id = 11%nat /\ all_id_chars id = true.
Proof.
  unfold match_watch. intros H.
  destruct (String.prefix "watch\v=" s).
  - destruct (take_id 11 (string_drop 8 s)) as [x|] eqn:E; [|discriminate].
    inversion H; subst. eapply take_id_spec. exact E.
  - destruct (String.prefix "watchv=" s); [|discriminate].
    destruct (take_id 11 (string_drop 7 s)) as [x|] eqn:E; [|discriminate].
    inversion H; subst. eapply take_id_spec. exact E.
Qed.

Lemma match_shorts_id (s id : string) (len : nat) :
  match_shorts s = Some (id, len) -> String.length id = 11%nat /\ all_id_chars id = true.
Proof.
  unfold match_shorts. intros H.
  destruct (String.prefix "/shorts/" s); [|discriminate].
  destruct (take_id 11 (string_drop 8 s)) as [x|] eqn:E; [|discriminate].
  inversion H; subst. eapply take_id_spec. exact E.
Qed.

Lemma findall_elem (m : string -> option (string * nat)) (P : string -> Prop)
    (s : string) (skip : nat) (id : string) :
  (forall s' id' len, m s' = Some (id', len) -> P id') ->
  id ∈ findall m s skip -> P id.
Proof.
  intros Hm. revert skip. induction s as [|c s IH]; intros skip H; simpl in H.
  - inversion H.
  - destruct skip as [|k]; [|by eapply IH].
    destruct (m (String c s)) as [[id' len]|] eqn:E; [|by eapply IH].
    apply elem_of_cons in H as [->|H]; [by eapply Hm | by eapply IH].
Qed.

Lemma contains_cons (k : string) (c : ascii) (s : string) :
  PyStr.contains k (String c s) = String.prefix k (String c s) || PyStr.contains k s.
Proof. reflexivity. Qed.

(** Without the text watchv= or watch\v= in the page the first pattern finds
    nothing. *)
Lemma findall_watch_none (html : string) (skip : nat) :
  PyStr.contains "watchv=" html = false ->
  PyStr.contains "watch\v=" html = false ->
  findall match_watch html skip = [].
Proof.
  revert skip. induction html as [|c s IH]; intros skip H1 H2; [reflexivity|].
  rewrite contains_cons in H1, H2.
  apply orb_false_iff in H1 as [P1 C1]. apply orb_false_iff in H2 as [P2 C2].
  simpl. destruct skip as [|k]; [|by apply IH].
  unfold match_watch. rewrite P1, P2. by apply IH.
Qed.

Section ScrapeFacts.

Variable requests_get : nat -> string -> get_result.
Variable list_of_set : gset string -> list string.

(** [list(s)] has every element of the set, each once. *)
Hypothesis list_of_set_spec :
  forall X : gset string, NoDup (list_of_set X) /\ forall x, x ∈ list_of_set X <-> x ∈ X.

Abbreviation scrape := (scrape_links requests_get list_of_set).

Lemma list_of_set_length (X : gset string) : length (list_of_set X) = size X.
Proof.
  destruct (list_of_set_spec X) as [Hnd Hin].
  unfold size, set_size. simpl. apply Permutation_length.
  apply NoDup_Permutation; [exact Hnd | apply NoDup_elements|].
  intros x. rewrite Hin, elem_of_elements. reflexivity.
Qed.

(** X23.  A response is returned only for an answer with status 200.  Its
    count is the number of distinct ids that the two patterns find in the
    page; its links are at most 50, so count can exceed their number, they
    are pairwise different, and each is the watch address of an id of eleven
    characters of the class A-Z, a-z, 0-9, _ and - that one of the patterns
    found. *)
Theorem scrape_links_response (url : string) (resp : scrape_response) :
  scrape_links requests_get list_of_set url = Returns resp ->
  exists r,
    requests_get 0 url = Responds r /\ status_code r = 200%Z /\
    sc_count resp =
      size (list_to_set (findall match_watch (resp_text r) 0) ∪
            list_to_set (findall match_shorts (resp_text r) 0) : gset string) /\
    length (sc_links resp) = Nat.min (sc_count resp) 50 /\
    NoDup (sc_links resp) /\
    forall link, link ∈ sc_links resp ->
      exists id,
        link = ("https://www.youtube.com/watch?v=" ++ id)%string /\
        String.length id = 11%nat /\ all_id_chars id = true /\
        (id ∈ findall match_watch (resp_text r) 0 \/
         id ∈ findall match_shorts (resp_text r) 0).
Proof.
  unfold scrape_links. destruct (requests_get 0 url) as [msg|r]; [discriminate|].
  destruct (Z.eqb_spec (status_code r) 200) as [Hst|Hst]; simpl; [|discriminate].
  intros H. inversion H; subst resp; clear H. simpl.
  set (X := (list_to_set (findall match_watch (resp_text r) 0) ∪
             list_to_set (findall match_shorts (resp_text r) 0) : gset string)).
  destruct (list_of_set_spec X) as [Hnd Hin].
  exists r. split; [reflexivity|]. split; [exact Hst|].
  split; [by rewrite length_map, list_of_set_length|].
  split; [by rewrite length_take, Nat.min_comm|].
  split.
  - eapply sublist_NoDup; [|apply sublist_take].
    apply (NoDup_fmap_2 _). exact Hnd.
  - intros link Hlink.
    pose proof (elem_of_sublist _ _ _ Hlink (sublist_take _ 50)) as Hl.
    apply list_elem_of_fmap in Hl as (id & -> & Hid).
    exists id. split; [reflexivity|].
    apply Hin in Hid. unfold X in Hid. rewrite elem_of_union, !elem_of_list_to_set in Hid.
    destruct Hid as [Hid|Hid].
    + destruct (findall_elem match_watch
                  (fun id => String.length id = 11%nat /\ all_id_chars id = true)
                  _ _ _ match_watch_id Hid) as [Hl Ha]. auto.
    + destruct (findall_elem match_shorts
                  (fun id => String.length id = 11%nat /\ all_id_chars id = true)
                  _ _ _ match_shorts_id Hid) as [Hl Ha]. auto.
Qed.

(** X24.  The first pattern looks for the word watch, an optional
    backslash and v=: in a page that has neither the text watchv= nor the
    text watch\v=, it finds nothing, so an address written watch?v=ID is not
    picked up; count and links then come from the shorts addresses alone. *)
Theorem scrape_links_misses_watch_links (url : string) (r : response) :
  requests_get 0 url = Responds r -> status_code r = 200%Z ->
  PyStr.contains "watchv=" (resp_text r) = false ->
  PyStr.contains "watch\v=" (resp_text r) = false ->
  exists resp,
    scrape_links requests_get list_of_set url = Returns resp /\
    sc_count resp = size (list_to_set (findall match_shorts (resp_text r) 0) : gset string) /\
    forall link, link ∈ sc_links resp ->
      exists id, link = ("https://www.youtube.com/watch?v=" ++ id)%string /\
        id ∈ findall match_shorts (resp_text r) 0.
Proof.
  intros Hget Hst H1 H2. unfold scrape_links. rewrite Hget, Hst. simpl.
  rewrite (findall_watch_none _ 0 H1 H2).
  eexists. split; [reflexivity|]. simpl.
  rewrite (left_id_L (∅ : gset string) (∪)). split; [by rewrite length_map, list_of_set_length|].
  intros link Hlink.
  pose proof (elem_of_sublist _ _ _ Hlink (sublist_take _ 50)) as Hl.
  apply list_elem_of_fmap in Hl as (id & -> & Hid).
  exists id. split; [reflexivity|].
  destruct (list_of_set_spec (list_to_set (findall match_shorts (resp_text r) 0))) as [_ Hin].
  apply Hin in Hid. by apply elem_of_list_to_set in Hid.
Qed.

(** X25.  The function ends in an [HTTPException] in two cases, both with
    status 400: the request raised an exception, and the detail carries its
    message; or the answer has a status other than 200, and the detail
    carries that status.  No exception of the request escapes. *)
Theorem scrape_links_errors (url : string) :
  (forall msg, scrape_links requests_get list_of_set url <> Propagates msg) /\
  forall st d,
    scrape_links requests_get list_of_set url = HTTPException st d <->
    st = 400%Z /\
    ((exists msg, requests_get 0 url = Raises msg /\
        d = ("Failed to fetch URL: " ++ msg)%string) \/
     (exists r, requests_get 0 url = Responds r /\ status_code r <> 200%Z /\
        d = ("Non-200 status: " ++ pretty (status_code r))%string)).
Proof.
  unfold scrape_links. destruct (requests_get 0 url) as [msg|r].
  - split; [discriminate|]. intros st d. split.
    + intros H. inversion H. split; [reflexivity|]. left. eauto.
    + intros (-> & [(m & Hm & ->)|(r & Hr & _)]); [|discriminate].
      inversion Hm. reflexivity.
  - destruct (Z.eqb_spec (status_code r) 200) as [Hst|Hst]; simpl.
    + split; [discriminate|]. intros st d. split; [discriminate|].
      intros (_ & [(m & Hm & _)|(r' & Hr & Hne & _)]); [discriminate|].
      inversion Hr; subst r'. contradiction.
    + split; [discriminate|]. intros st d. split.
      * intros H. inversion H. split; [reflexivity|]. right. eauto.
      * intros (-> & [(m & Hm & _)|(r' & Hr & _ & ->)]); [discriminate|].
        inversion Hr. reflexivity.
Qed.

End ScrapeFacts.

Lemma elements_enumerates (X : gset string) :
  NoDup (elements X) /\ forall x, x ∈ elements X <-> x ∈ X.
Proof. split; [apply NoDup_elements | intros x; apply elem_of_elements]. Qed.

Lemma scrape_links_response_witness :
  exists resp,
    scrape_links page_requests_get elements "https://www.youtube.com/@odd" = Returns resp /\
    sc_count resp = 2%nat /\ NoDup (sc_links resp).
Proof.
  eexists. split; [vm_compute; reflexivity|]. split; [reflexivity|].
  destruct (scrape_links_response page_requests_get elements elements_enumerates
              "https://www.youtube.com/@odd" _ eq_refl)
    as (r & _ & _ & _ & _ & Hnd & _).
  exact Hnd.
Defined.

Lemma scrape_links_misses_watch_links_witness :
  exists resp,
    scrape_links page_requests_get elements "https://www.youtube.com/@plain" = Returns resp /\
    sc_count resp = 1%nat /\
    sc_links resp = ["https://www.youtube.com/watch?v=abcdefghijk"%string].
Proof.
  destruct (scrape_links_misses_watch_links page_requests_get elements elements_enumerates
              "https://www.youtube.com/@plain" (Response 200 plain_page)
              eq_refl eq_refl eq_refl eq_refl)
    as (resp & Hresp & _).
  exists resp. split; [exact Hresp|].
  vm_compute in Hresp. inversion Hresp. split; reflexivity.
Defined.
